(** * RxGo (grx): the EventStream / Observable core

    A shallow embedding of [eventstream/eventstream.go] and of the part of
    the [observable] package that its test-suite exercises.

    Go channels are modelled by their run-time state (capacity, buffered
    items, closed flag); a goroutine is a program counter together with the
    channel operation it is about to perform, so that a blocked send, a
    rendezvous on an unbuffered channel and a receive on a closed channel
    are all explicit. *)

From Stdlib Require Import String ZArith Bool Arith Lia List Permutation.
Import ListNotations.
Open Scope list_scope.

(** ** Package [bases] and [errors]: items, errors, emitters, iterators *)

Module bases.

(** Modelled from the spec: package [bases] is imported by the sources
    but declared outside them.  [bases.Item] is the payload of an
    emitted value, of any type in Go; the payloads the test-suite pushes
    are integers and strings. *)
Inductive Item : Type :=
| ItemInt (n : Z)
| ItemStr (s : string).

(** Modelled from the spec: the error codes of package [errors] and the
    constructor [NewError] are declared outside the available sources.
    [EndOfIteratorError] is the code named in [EventStream.Next]; the
    spec calls the signal EndOfStream and names [InvalidObserver] as the
    only synchronous error of [Subscribe]. *)
Inductive ErrorCode : Type :=
| EndOfIteratorError
| InvalidObserver.

(** Modelled from the spec: a non-nil Go [error], either one built from
    a code of package [errors], which is outside the sources, or one
    built by [errors.New(msg)] in user code. *)
Inductive error : Type :=
| BaseError (code : ErrorCode)
| ErrorString (msg : string).

(** Modelled from the spec: [NewError], called by [EventStream.Next] and
    defined outside the available sources, builds the error of a code. *)
Definition NewError (code : ErrorCode) : error := BaseError code.

(** Modelled from the spec: the concrete emitter of package [emittable],
    which is outside the sources: an immutable envelope holding exactly
    one of a value or an error. *)
Inductive Emittable : Type :=
| EmitValue (v : Item)
| EmitError (e : error).

(** Modelled from the spec: [bases.Emitter], declared outside the
    sources.  It is an interface type, so a variable of that type is
    either nil ([None]) or holds a concrete emitter. *)
Definition Emitter : Type := option Emittable.

(** Modelled from the spec: [bases.Iterator], declared outside the
    sources: an object with hidden mutable state and one method
    [Next() (Emitter, error)] under pull protocol.  The second component
    of a pull is the Go [error] result (nil is [None]).  The model covers
    pulls that return.  A pull that never returns, as a pull on an open
    and empty stream does, stops the goroutine that made it at that
    point: of the runs considered below only a prefix then takes place,
    so what is proved of every point of every run still holds, while
    nothing is claimed about such an iterator being pulled to the end. *)
Record Iterator : Type := MkIterator {
  St : Type;
  state : St;
  next : St -> (Emitter * option error) * St
}.

Definition Iterator_Next (iter : Iterator) : (Emitter * option error) * Iterator :=
  let '(r, st') := next iter (state iter) in
  (r, {| St := St iter; state := st'; next := next iter |}).

(** The iterator after [k] pulls, and the results of its first [n]
    pulls in pull order. *)
Fixpoint advance (k : nat) (iter : Iterator) : Iterator :=
  match k with
  | O => iter
  | S k' => snd (Iterator_Next (advance k' iter))
  end.

Definition pulls (n : nat) (iter : Iterator) : list (Emitter * option error) :=
  map (fun k => fst (Iterator_Next (advance k iter))) (seq 0 n).

(** Modelled from the spec: the slice-backed iterator that the tests
    build with [iterable.From], which is outside the sources: it hands
    out the elements one by one and then fails. *)
Definition slice_next (l : list Emitter) : (Emitter * option error) * list Emitter :=
  match l with
  | e :: l' => ((e, None), l')
  | [] => ((None, Some (NewError EndOfIteratorError)), [])
  end.

Definition slice_iterator (l : list Emitter) : Iterator :=
  {| St := list Emitter; state := l; next := slice_next |}.

(** An iterator that replays a given script of pull results, emitter and
    error as given, and fails like the slice iterator afterwards. *)
Definition script_next (l : list (Emitter * option error))
  : (Emitter * option error) * list (Emitter * option error) :=
  match l with
  | r :: l' => (r, l')
  | [] => ((None, Some (NewError EndOfIteratorError)), [])
  end.

Definition script_iterator (l : list (Emitter * option error)) : Iterator :=
  {| St := list (Emitter * option error); state := l; next := script_next |}.

End bases.

Import bases.

(** ** Go channels of emitters *)

Module Chan.

Record chan : Type := MkChan {
  cap : nat;
  buf : list Emitter;
  closed : bool
}.

(** [make(EventStream, n)] *)
Definition make (n : nat) : chan := {| cap := n; buf := []; closed := false |}.

Definition with_buf (c : chan) (b : list Emitter) : chan :=
  {| cap := cap c; buf := b; closed := closed c |}.

Definition close (c : chan) : chan :=
  {| cap := cap c; buf := buf c; closed := true |}.

End Chan.

Import Chan.

(** ** Goroutines that feed a channel *)

Module goroutines.

(** What a goroutine is about to do.  [Print] is the [fmt.Println] of
    [From]'s loop (it also stands for the iterator pull that precedes
    it, both being local to the goroutine). *)
Inductive action (PC : Type) : Type :=
| Print (emitter : Emitter) (err : option error) (k : PC)
| Send (emitter : Emitter) (k : PC)
| Close (k : PC)
| Exit.
Arguments Print {PC}.
Arguments Send {PC}.
Arguments Close {PC}.
Arguments Exit {PC}.

(** A goroutine: its program points, the point it is at, and the
    operation each point performs. *)
Record goroutine : Type := Go {
  PC : Type;
  at_pc : PC;
  code : PC -> action PC
}.

Definition resume (g : goroutine) (k : PC g) : goroutine :=
  {| PC := PC g; at_pc := k; code := code g |}.

(** A channel together with the producer goroutine that feeds it, if
    there is one. *)
Record fed : Type := MkStream {
  ch : chan;
  producer : option goroutine
}.

Inductive label : Type :=
| LPrint (emitter : Emitter) (err : option error)
| LSend (emitter : Emitter)
| LClose
| LExit.

Inductive outcome : Type :=
| Stepped (l : label) (s : fed)
| Blocked          (* the goroutine waits at a send, or there is none *)
| Panicked.        (* send on, or close of, a closed channel *)

(** One step of the producer on its own. *)
Definition prod_step (s : fed) : outcome :=
  match producer s with
  | None => Blocked
  | Some g =>
      match code g (at_pc g) with
      | Print emitter err k =>
          Stepped (LPrint emitter err) {| ch := ch s; producer := Some (resume g k) |}
      | Send emitter k =>
          if closed (ch s) then Panicked
          else if (length (buf (ch s)) <? cap (ch s))%nat
          then Stepped (LSend emitter)
                 {| ch := with_buf (ch s) (buf (ch s) ++ [emitter]);
                    producer := Some (resume g k) |}
          else Blocked
      | Close k =>
          if closed (ch s) then Panicked
          else Stepped LClose {| ch := close (ch s); producer := Some (resume g k) |}
      | Exit => Stepped LExit {| ch := ch s; producer := None |}
      end
  end.

(** Channel receive [emitter, ok := <-evs]: a buffered item first, then
    the closed signal, else a rendezvous with a producer waiting at a
    send, else the receiver waits. *)
Inductive received : Type :=
| Recv (emitter : Emitter) (ok : bool) (s : fed)
| RecvBlocked.

Definition recv (s : fed) : received :=
  match buf (ch s) with
  | emitter :: b => Recv emitter true {| ch := with_buf (ch s) b; producer := producer s |}
  | [] =>
      if closed (ch s) then Recv None false s
      else
        match producer s with
        | Some g =>
            match code g (at_pc g) with
            | Send emitter k => Recv emitter true {| ch := ch s; producer := Some (resume g k) |}
            | _ => RecvBlocked
            end
        | None => RecvBlocked
        end
  end.

(** The send that a receive completes by rendezvous, if any. *)
Definition handoff (s : fed) : list label :=
  match buf (ch s), closed (ch s), producer s with
  | [], false, Some g =>
      match code g (at_pc g) with
      | Send emitter _ => [LSend emitter]
      | _ => []
      end
  | _, _, _ => []
  end.

(** The operations of the first [n] steps of a goroutine when nothing
    holds it up, and the goroutine after them. *)
Fixpoint trace (n : nat) (g : goroutine) : list label :=
  match n with
  | O => []
  | S n' =>
      match code g (at_pc g) with
      | Print emitter err k => LPrint emitter err :: trace n' (resume g k)
      | Send emitter k => LSend emitter :: trace n' (resume g k)
      | Close k => LClose :: trace n' (resume g k)
      | Exit => [LExit]
      end
  end.

Fixpoint after (n : nat) (g : goroutine) : option goroutine :=
  match n with
  | O => Some g
  | S n' =>
      match code g (at_pc g) with
      | Print _ _ k | Send _ k | Close k => after n' (resume g k)
      | Exit => None
      end
  end.

(** [feeds g l]: left alone, [g] sends exactly the emitters [l] in
    order, then closes the channel and returns. *)
Inductive feeds : goroutine -> list Emitter -> Prop :=
| feeds_send g emitter k l :
    code g (at_pc g) = Send emitter k -> feeds (resume g k) l -> feeds g (emitter :: l)
| feeds_print g emitter err k l :
    code g (at_pc g) = Print emitter err k -> feeds (resume g k) l -> feeds g l
| feeds_close g k :
    code g (at_pc g) = Close k -> code g k = Exit -> feeds g [].

(** Reading a trace: its channel operations and the emitters it sent. *)
Definition is_op (l : label) : bool :=
  match l with
  | LPrint _ _ => false
  | _ => true
  end.

Definition ops (ls : list label) : list label := filter is_op ls.

Fixpoint sends (ls : list label) : list Emitter :=
  match ls with
  | [] => []
  | LSend emitter :: ls' => emitter :: sends ls'
  | _ :: ls' => sends ls'
  end.

Definition prefix {A : Type} (l1 l2 : list A) : Prop := exists l3, l2 = l1 ++ l3.

End goroutines.

Import goroutines.

(** ** Package [eventstream] *)

Module eventstream.

Definition EventStream : Type := fed.

(** Next returns the next Event on the EventStream.
    [None] is a caller that is still blocked in the receive. *)
Definition Next (evs : EventStream) : option ((Emitter * option error) * EventStream) :=
  match recv evs with
  | Recv emitter true evs' => Some ((emitter, None), evs')
  | Recv _ false evs' => Some ((None, Some (NewError EndOfIteratorError)), evs')
  | RecvBlocked => None
  end.

(** The goroutine of [New]: the range loop over the arguments, then
    [close(es)]. *)
Inductive new_pc : Type :=
| NewLoop (rest : list Emitter)
| NewDone.

Definition new_code (p : new_pc) : action new_pc :=
  match p with
  | NewLoop (emitter :: rest) => Send emitter (NewLoop rest)
  | NewLoop [] => Close NewDone
  | NewDone => Exit
  end.

(** New creates a new EventStream from one or more Event *)
Definition New (emitters : list Emitter) : EventStream :=
  let es := make (length emitters) in
  if (0 <? length emitters)%nat
  then {| ch := es; producer := Some (Go new_pc (NewLoop emitters) new_code) |}
  else {| ch := es; producer := None |}.

(** The goroutine of [From]: pull, print, break on error, else send;
    [close(es)] after the loop. *)
Inductive from_pc : Type :=
| FromPull (iter : Iterator)
| FromSend (emitter : Emitter) (iter : Iterator)
| FromClose
| FromDone.

Definition from_code (p : from_pc) : action from_pc :=
  match p with
  | FromPull iter =>
      let '((emitter, err), iter') := Iterator_Next iter in
      Print emitter err
        (match err with
         | Some _ => FromClose
         | None => FromSend emitter iter'
         end)
  | FromSend emitter iter => Send emitter (FromPull iter)
  | FromClose => Close FromDone
  | FromDone => Exit
  end.

(** From creates a new EventStream from an Iterator *)
Definition From (iter : Iterator) : EventStream :=
  let es := make 0 in
  {| ch := es; producer := Some (Go from_pc (FromPull iter) from_code) |}.

(** *** Executions *)

(** Run the producer alone for at most [n] steps; the labels are the
    operations it performed, in order. *)
Fixpoint run_producer (n : nat) (s : EventStream) : list label * EventStream :=
  match n with
  | O => ([], s)
  | S n' =>
      match prod_step s with
      | Stepped l s' => let '(ls, s'') := run_producer n' s' in (l :: ls, s'')
      | Blocked | Panicked => ([], s)
      end
  end.

(** A blocking call of [Next]: the caller waits while the producer runs. *)
Inductive pulled : Type :=
| Returned (r : Emitter * option error) (s : EventStream)
| Stuck            (* nobody is left to send or close: the caller waits for ever *)
| Crashed
| OutOfFuel.

Fixpoint pull (fuel : nat) (s : EventStream) : pulled :=
  match Next s with
  | Some (r, s') => Returned r s'
  | None =>
      match prod_step s with
      | Stepped _ s' =>
          match fuel with
          | O => OutOfFuel
          | S fuel' => pull fuel' s'
          end
      | Blocked => Stuck
      | Panicked => Crashed
      end
  end.

(** A pull sequence: [n] blocking calls of [Next] one after the other. *)
Fixpoint pull_seq (fuel n : nat) (s : EventStream)
  : list (Emitter * option error) * option EventStream :=
  match n with
  | O => ([], Some s)
  | S n' =>
      match pull fuel s with
      | Returned r s' => let '(rs, o) := pull_seq fuel n' s' in (r :: rs, o)
      | _ => ([], None)
      end
  end.

(** An arbitrary interleaving of the producer and one consumer: [Tick]
    lets the producer take a step if it can, [Pull] lets the consumer's
    pending [Next] return if it can. *)
Inductive turn : Type := Tick | Pull.

Record observed : Type := MkObserved {
  sent : list label;                          (* what the producer did *)
  got : list (Emitter * option error)         (* what Next returned *)
}.

Definition turn_step (t : turn) (s : EventStream) (o : observed)
  : observed * EventStream :=
  match t with
  | Tick =>
      match prod_step s with
      | Stepped l s' => ({| sent := sent o ++ [l]; got := got o |}, s')
      | Blocked | Panicked => (o, s)
      end
  | Pull =>
      match Next s with
      | Some (r, s') => ({| sent := sent o ++ handoff s; got := got o ++ [r] |}, s')
      | None => (o, s)
      end
  end.

Fixpoint interleave (sched : list turn) (s : EventStream) (o : observed)
  : observed * EventStream :=
  match sched with
  | [] => (o, s)
  | t :: sched' => let '(o', s') := turn_step t s o in interleave sched' s' o'
  end.

Definition start : observed := {| sent := []; got := [] |}.

(** A successful pull, the exhaustion signal, and the emitters among
    the results of a pull sequence. *)
Definition okr (emitter : Emitter) : Emitter * option error := (emitter, None).

Definition eos : Emitter * option error := (None, Some (NewError EndOfIteratorError)).

Fixpoint delivered (rs : list (Emitter * option error)) : list Emitter :=
  match rs with
  | [] => []
  | (emitter, None) :: rs' => emitter :: delivered rs'
  | (_, Some _) :: rs' => delivered rs'
  end.

Definition all_ok (rs : list (Emitter * option error)) : Prop :=
  Forall (fun r => snd r = None) rs.

(** What holds of a stream and of what has been observed of it, at
    any point of any interleaving: the producer has performed a prefix
    of its own trace, the channel is first-in first-out, holds at most
    its capacity, and the exhaustion signal comes only once it is
    closed and drained. *)
Record fifo_inv (c0 : nat) (g0 : goroutine) (s : EventStream) (o : observed) : Prop := {
  fi_cap : cap (ch s) = c0;
  fi_trace : exists n, sent o = trace n g0 /\ producer s = after n g0;
  fi_fifo : exists j i,
      got o = map okr (firstn j (sends (sent o))) ++ repeat eos i
      /\ buf (ch s) = skipn j (sends (sent o))
      /\ j <= length (sends (sent o))
      /\ (0 < i -> closed (ch s) = true /\ buf (ch s) = []);
  fi_closed : closed (ch s) = true <-> In LClose (sent o);
  fi_room : length (buf (ch s)) <= c0
}.

End eventstream.

Import eventstream.

(** ** Package [observable]

    Only the tests of this package are among the sources; its operations
    are modelled from the specification. *)

Module observable.

(** Modelled from the spec: the Observable type is declared outside the
    available sources.  It couples one EventStream with one Notifier,
    a one-shot done flag. *)
Record Observable : Type := MkObservable {
  stream : EventStream;
  notifier_done : bool
}.

(** Modelled from the spec: the Observer type is declared outside the
    available sources.  It has three independent optional callback
    slots; [W] is the state the callbacks act on (the test-suite's
    handlers append to slices they close over). *)
Record Observer (W : Type) : Type := MkObserver {
  NextHandler : option (Item -> W -> W);
  ErrHandler : option (error -> W -> W);
  DoneHandler : option (W -> W)
}.
Arguments MkObserver {W}.
Arguments NextHandler {W}.
Arguments ErrHandler {W}.
Arguments DoneHandler {W}.

(** Modelled from the spec: the Subscription type is declared outside
    the available sources.  It carries the cancellation signal that the
    dispatch loop checks; [Dispose] sets it and is idempotent. *)
Record Subscription : Type := MkSubscription {
  disposed : bool
}.

Definition Dispose (sub : Subscription) : Subscription := {| disposed := true |}.

(** Modelled from the spec: the states of a subscription.  [Pulling] is
    an active loop blocked inside a pull; [Faulted] is the loop stopped
    on a nil emitter, which has neither tag and about which the spec
    says nothing. *)
Inductive status : Type :=
| Active
| Pulling
| Disposed
| Completed
| Errored
| Faulted.

(** What the dispatch task does, in order: it starts a pull, a pull
    returns, it invokes a handler. *)
Inductive event : Type :=
| EvPull
| EvGot (r : Emitter * option error)
| EvNext (v : Item)
| EvError (e : error)
| EvDone.

(** The dispatch task of one [Subscribe] call. *)
Record task (W : Type) : Type := MkTask {
  observer : Observer W;
  source : EventStream;
  subscription : Subscription;
  st : status;
  world : W;
  events : list event
}.
Arguments MkTask {W}.
Arguments observer {W}.
Arguments source {W}.
Arguments subscription {W}.
Arguments st {W}.
Arguments world {W}.
Arguments events {W}.

Section Dispatch.

Context {W : Type}.

(** Invoking a slot: an unset slot silently absorbs its event. *)
Definition call_next (ob : Observer W) (v : Item) (w : W) : W * list event :=
  match NextHandler ob with
  | Some h => (h v w, [EvNext v])
  | None => (w, [])
  end.

Definition call_error (ob : Observer W) (e : error) (w : W) : W * list event :=
  match ErrHandler ob with
  | Some h => (h e w, [EvError e])
  | None => (w, [])
  end.

Definition call_done (ob : Observer W) (w : W) : W * list event :=
  match DoneHandler ob with
  | Some h => (h w, [EvDone])
  | None => (w, [])
  end.

(** Modelled from the spec: the body of the dispatch loop, which is
    outside the available sources, at the point where the pull has
    returned [r]: a failed pull invokes onDone and completes; an
    error-tagged emitter invokes onError and terminates; a
    value-tagged emitter invokes onNext and the loop continues.  On one
    point the repository's own test of the loop decides against the
    spec: [TestStartMethodWithFakeExternalCalls] asserts that the done
    handler has run in a subscription that received an error, so the
    loop that stops on an error still invokes onDone on its way out. *)
Definition settle (t : task W) (r : Emitter * option error) (s' : EventStream) : task W :=
  let evs := events t ++ [EvGot r] in
  match r with
  | (_, Some _) =>
      let '(w, c) := call_done (observer t) (world t) in
      MkTask (observer t) s' (subscription t) Completed w (evs ++ c)
  | (Some (EmitError e), None) =>
      let '(w, c) := call_error (observer t) e (world t) in
      let '(w', c') := call_done (observer t) w in
      MkTask (observer t) s' (subscription t) Errored w' (evs ++ c ++ c')
  | (Some (EmitValue v), None) =>
      let '(w, c) := call_next (observer t) v (world t) in
      MkTask (observer t) s' (subscription t) Active w (evs ++ c)
  | (None, None) =>
      MkTask (observer t) s' (subscription t) Faulted (world t) evs
  end.

(** Modelled from the spec: one step of the dispatch task.  At the top
    of the loop it checks the cancellation signal first and stops
    without invoking any handler if it is set; otherwise it pulls
    ([Observable.Next] delegates to the EventStream).  A terminal
    state has no outgoing transition. *)
Definition dispatch_step (t : task W) : task W :=
  match st t with
  | Active =>
      if disposed (subscription t)
      then MkTask (observer t) (source t) (subscription t) Disposed (world t) (events t)
      else
        let t1 := MkTask (observer t) (source t) (subscription t) Pulling (world t)
                         (events t ++ [EvPull]) in
        match Next (source t) with
        | Some (r, s') => settle t1 r s'
        | None => t1
        end
  | Pulling =>
      match Next (source t) with
      | Some (r, s') => settle t r s'
      | None => t
      end
  | Disposed | Completed | Errored | Faulted => t
  end.

(** The tasks that run side by side: the producer of the stream, the
    dispatch task, and the caller, who may dispose. *)
Inductive dturn : Type :=
| ProducerTick
| DispatchStep
| DisposeCall.

Definition dturn_step (d : dturn) (t : task W) : task W :=
  match d with
  | ProducerTick =>
      match prod_step (source t) with
      | Stepped _ s' => MkTask (observer t) s' (subscription t) (st t) (world t) (events t)
      | Blocked | Panicked => t
      end
  | DispatchStep => dispatch_step t
  | DisposeCall =>
      MkTask (observer t) (source t) (Dispose (subscription t)) (st t) (world t) (events t)
  end.

Definition run (sched : list dturn) (t : task W) : task W :=
  fold_left (fun t d => dturn_step d t) sched t.

(** Modelled from the spec: the dispatch task as [Subscribe] spawns it,
    with a Subscription that is not disposed, at the top of its loop,
    having done nothing yet. *)
Definition spawn (o : Observable) (ob : Observer W) (w : W) : task W :=
  MkTask ob (stream o) {| disposed := false |} Active w [].

(** Modelled from the spec: [Subscribe], which is outside the
    available sources.  It validates the observer and fails with
    InvalidObserver, spawning nothing, if no slot is set; otherwise it
    spawns the dispatch task and returns a live Subscription.  The
    third component is the task spawned, if any. *)
Definition Subscribe (o : Observable) (ob : Observer W) (w : W)
  : option Subscription * option error * option (task W) :=
  match NextHandler ob, ErrHandler ob, DoneHandler ob with
  | None, None, None => (None, Some (NewError InvalidObserver), None)
  | _, _, _ => (Some (subscription (spawn o ob w)), None, Some (spawn o ob w))
  end.






End Dispatch.

(** Modelled from the spec: the program points of the producer of
    [Range], which is outside the available sources. *)
Inductive range_pc : Type :=
| RangeLoop (i : Z)
| RangeDone.

(** Modelled from the spec: the producer of [Range] emits [start],
    [start+1], ... up to but not including [end_], and then closes. *)
Definition range_code (end_ : Z) (p : range_pc) : action range_pc :=
  match p with
  | RangeLoop i =>
      if (i <? end_)%Z
      then Send (Some (EmitValue (ItemInt i))) (RangeLoop (i + 1))
      else Close RangeDone
  | RangeDone => Exit
  end.

(** Modelled from the spec: [Range], which is outside the available
    sources.  The spec leaves the buffering of each operator to the
    implementation; it is the parameter [capacity]. *)
Definition Range (capacity : nat) (start end_ : Z) : Observable :=
  {| stream := {| ch := make capacity;
                  producer := Some (Go range_pc (RangeLoop start) (range_code end_)) |};
     notifier_done := false |}.

(** The integers from [start] up to but not including [end_]. *)
Definition range_values (start end_ : Z) : list Z :=
  map (fun k => (start + Z.of_nat k)%Z) (seq 0 (Z.to_nat (end_ - start))).

Definition value_emitter (n : Z) : Emitter := Some (EmitValue (ItemInt n)).

(** Modelled from the spec: a directive, a zero-argument function
    producing one emitter. *)
Definition Directive : Type := unit -> Emitter.

(** Modelled from the spec: a task of [Start], which is outside the
    available sources: its directive has not returned yet, or it has
    returned an emitter that waits at the send because the stream has no
    room, or the emitter has been handed to the stream. *)
Inductive start_task : Type :=
| Running (d : Directive)
| Parked (emitter : Emitter)
| Finished.

(** Modelled from the spec: the state of [Start]: one task per
    directive, the stream, the tasks waiting at their send in order of
    arrival (the channel's queue of senders), the order in which the
    directives have completed so far, and what a consumer has pulled. *)
Record started : Type := MkStarted {
  tasks : list start_task;
  es : chan;
  sendq : list nat;
  completed : list nat;
  pulled : list Emitter
}.

(** Modelled from the spec: [Start].  Each directive runs in a task of
    its own, started at once.  The spec leaves the buffering of each
    operator to the implementation; it is the parameter [capacity]. *)
Definition Start (capacity : nat) (directives : list Directive) : started :=
  {| tasks := map Running directives;
     es := make capacity;
     sendq := [];
     completed := [];
     pulled := [] |}.

(** What the scheduler can run next: the task of directive [i], whose
    directive then returns; the consumer, who pulls; the closing task. *)
Inductive start_turn : Type :=
| Finish (i : nat)
| Receive
| Closer.

Fixpoint set_task (i : nat) (t : start_task) (ts : list start_task) : list start_task :=
  match ts, i with
  | [], _ => []
  | _ :: ts', O => t :: ts'
  | t0 :: ts', S i' => t0 :: set_task i' t ts'
  end.

Definition all_finished (ts : list start_task) : bool :=
  forallb (fun t => match t with Finished => true | _ => false end) ts.

(** The first task in the queue of senders, with its emitter. *)
Definition first_parked (s : started) : option (nat * Emitter * list nat) :=
  match sendq s with
  | j :: q =>
      match nth_error (tasks s) j with
      | Some (Parked emitter) => Some (j, emitter, q)
      | _ => None
      end
  | [] => None
  end.

(** Modelled from the spec: one scheduling step of [Start].  A task
    whose directive returns forwards the one emitter it got to the
    stream, waiting in line if there is no room; a pull takes the oldest
    emitter and lets the first waiting task in; the closing task closes
    the stream once every task has handed over its emitter, and waits
    until then. *)
Definition start_step (t : start_turn) (s : started) : started :=
  match t with
  | Finish i =>
      match nth_error (tasks s) i with
      | Some (Running d) =>
          if (length (buf (es s)) <? cap (es s))%nat
          then {| tasks := set_task i Finished (tasks s);
                  es := with_buf (es s) (buf (es s) ++ [d tt]);
                  sendq := sendq s;
                  completed := completed s ++ [i];
                  pulled := pulled s |}
          else {| tasks := set_task i (Parked (d tt)) (tasks s);
                  es := es s;
                  sendq := sendq s ++ [i];
                  completed := completed s ++ [i];
                  pulled := pulled s |}
      | _ => s
      end
  | Receive =>
      match buf (es s), first_parked s with
      | emitter :: b, Some (j, waiting, q) =>
          {| tasks := set_task j Finished (tasks s);
             es := with_buf (es s) (b ++ [waiting]);
             sendq := q;
             completed := completed s;
             pulled := pulled s ++ [emitter] |}
      | emitter :: b, None =>
          {| tasks := tasks s;
             es := with_buf (es s) b;
             sendq := sendq s;
             completed := completed s;
             pulled := pulled s ++ [emitter] |}
      | [], Some (j, waiting, q) =>
          {| tasks := set_task j Finished (tasks s);
             es := es s;
             sendq := q;
             completed := completed s;
             pulled := pulled s ++ [waiting] |}
      | [], None => s
      end
  | Closer =>
      if all_finished (tasks s) && negb (closed (es s))
      then {| tasks := tasks s;
              es := close (es s);
              sendq := sendq s;
              completed := completed s;
              pulled := pulled s |}
      else s
  end.

Definition start_run (sched : list start_turn) (s : started) : started :=
  fold_left (fun s t => start_step t s) sched s.

(** The emitter that directive [i] returns. *)
Definition result_of (directives : list Directive) (i : nat) : Emitter :=
  match nth_error directives i with
  | Some d => d tt
  | None => None
  end.

(** What holds of [Start] at any point of any schedule: a task runs its
    directive until it is listed as completed, then waits in line or has
    finished; the emitters pulled, those in the stream and those waiting
    in line are, in this order, the results in order of completion; no
    directive completes twice; a task waits only when the stream is
    full; and the stream is closed only when every task has finished. *)
Record start_inv (capacity : nat) (directives : list Directive) (s : started) : Prop := {
  si_running : forall i d,
      nth_error directives i = Some d -> ~ In i (completed s) ->
      nth_error (tasks s) i = Some (Running d);
  si_parked : forall i,
      In i (sendq s) -> nth_error (tasks s) i = Some (Parked (result_of directives i));
  si_finished : forall i,
      In i (completed s) -> ~ In i (sendq s) -> nth_error (tasks s) i = Some Finished;
  si_length : length (tasks s) = length directives;
  si_order : exists handed,
      completed s = handed ++ sendq s
      /\ pulled s ++ buf (es s) = map (result_of directives) handed;
  si_nodup : NoDup (completed s);
  si_cap : cap (es s) = capacity;
  si_room : length (buf (es s)) <= capacity;
  si_full : sendq s <> [] -> length (buf (es s)) = capacity;
  si_closed : closed (es s) = true -> all_finished (tasks s) = true
}.

End observable.

Import observable.

(** ** The test-suite of package [observable] *)

Module observable_test.

(** The fixtures of [TestStartMethodWithFakeExternalCalls].  A fake HTTP
    response is represented by its status code.  The four directives
    sleep 20, 10, 30 and 50 milliseconds, so they complete in the order
    [d2], [d1], [d3], [d4]. *)
Definition d1 : Directive := fun _ => Some (EmitValue (ItemInt 404)).
Definition d2 : Directive := fun _ => Some (EmitValue (ItemInt 200)).
Definition d3 : Directive := fun _ => Some (EmitValue (ItemInt 500)).
Definition d4 : Directive := fun _ => Some (EmitError (ErrorString "Some kind of error")).

(** The state the handlers of [watcher] close over: [fakeHttpResponses]
    and [fakeHttpErrors]. *)
Definition captured : Type := (list Z * list error)%type.

Definition watcher : Observer captured :=
  {| NextHandler := Some (fun it w =>
                            match it with
                            | ItemInt res => (fst w ++ [res], snd w)
                            | ItemStr _ => w
                            end);
     ErrHandler := Some (fun err w => (fst w, snd w ++ [err]));
     DoneHandler := Some (fun w => (fst w ++ [999%Z], snd w)) |}.

(** The stream of [Start(d1, d2, d3, d4)], with room for the four
    results, once the four tasks and the closing task have run, as an
    Observable. *)
Definition source : Observable :=
  {| stream := {| ch := es (start_run (map Finish [1; 0; 2; 3] ++ [Closer])
                                      (Start 4 [d1; d2; d3; d4]));
                  producer := None |};
     notifier_done := false |}.

(** What the test asserts of the captured state after 100 ms. *)
Definition expected (w : captured) : Prop :=
  length (fst w) = 4 /\ length (snd w) = 1
  /\ nth 0 (fst w) 0%Z = 200%Z /\ nth 1 (fst w) 0%Z = 404%Z
  /\ nth 2 (fst w) 0%Z = 500%Z /\ nth 3 (fst w) 0%Z = 999%Z.

End observable_test.

(** ** Reachable states of the streams of [New] and [From] *)

Module runs.

(** What [From]'s goroutine has printed: the results of the pulls it
    made, in order. *)
Fixpoint prints (ls : list label) : list (Emitter * option error) :=
  match ls with
  | [] => []
  | LPrint emitter err :: ls' => (emitter, err) :: prints ls'
  | _ :: ls' => prints ls'
  end.

(** The producer turns and the consumer turns of a schedule. *)
Fixpoint ticks (sched : list turn) : nat :=
  match sched with
  | [] => 0
  | Tick :: sched' => S (ticks sched')
  | Pull :: sched' => ticks sched'
  end.

Fixpoint pull_turns (sched : list turn) : nat :=
  match sched with
  | [] => 0
  | Tick :: sched' => pull_turns sched'
  | Pull :: sched' => S (pull_turns sched')
  end.

(** The states of the stream of [New] with capacity [c], with the number
    of steps its goroutine still has to take: in the loop with [rest] to
    send, after [close(es)], or gone. *)
Inductive new_state (c : nat) : nat -> EventStream -> Prop :=
| NS_loop b rest :
    length b + length rest <= c ->
    new_state c (length rest + 2)
      {| ch := {| cap := c; buf := b; closed := false |};
         producer := Some (Go new_pc (NewLoop rest) new_code) |}
| NS_done b :
    length b <= c ->
    new_state c 1
      {| ch := {| cap := c; buf := b; closed := true |};
         producer := Some (Go new_pc NewDone new_code) |}
| NS_gone b :
    length b <= c ->
    new_state c 0
      {| ch := {| cap := c; buf := b; closed := true |}; producer := None |}.

(** The states of the stream of [From iter] together with what has been
    observed: at the top of the loop after [k] successful pulls; at the
    send with the emitter of the pull after them; and, once a pull has
    failed, before [close(es)], after it, and gone. *)
Inductive from_run (iter : Iterator) (s : EventStream) (o : observed) : Prop :=
| FR_pull k :
    all_ok (pulls k iter) ->
    prints (sent o) = pulls k iter ->
    sends (sent o) = map fst (pulls k iter) ->
    s = {| ch := make 0;
           producer := Some (Go from_pc (FromPull (advance k iter)) from_code) |} ->
    from_run iter s o
| FR_send k emitter :
    all_ok (pulls (S k) iter) ->
    fst (Iterator_Next (advance k iter)) = (emitter, None) ->
    prints (sent o) = pulls (S k) iter ->
    sends (sent o) = map fst (pulls k iter) ->
    s = {| ch := make 0;
           producer := Some (Go from_pc (FromSend emitter (advance (S k) iter)) from_code) |} ->
    from_run iter s o
| FR_close k emitter err :
    all_ok (pulls k iter) ->
    fst (Iterator_Next (advance k iter)) = (emitter, Some err) ->
    prints (sent o) = pulls (S k) iter ->
    sends (sent o) = map fst (pulls k iter) ->
    s = {| ch := make 0; producer := Some (Go from_pc FromClose from_code) |} ->
    from_run iter s o
| FR_done k emitter err :
    all_ok (pulls k iter) ->
    fst (Iterator_Next (advance k iter)) = (emitter, Some err) ->
    prints (sent o) = pulls (S k) iter ->
    sends (sent o) = map fst (pulls k iter) ->
    s = {| ch := close (make 0); producer := Some (Go from_pc FromDone from_code) |} ->
    from_run iter s o
| FR_gone k emitter err :
    all_ok (pulls k iter) ->
    fst (Iterator_Next (advance k iter)) = (emitter, Some err) ->
    prints (sent o) = pulls (S k) iter ->
    sends (sent o) = map fst (pulls k iter) ->
    s = {| ch := close (make 0); producer := None |} ->
    from_run iter s o.

End runs.

Import runs.

(** * Properties *)

(** ** Lists and traces *)

Lemma sends_app (l1 l2 : list label) : sends (l1 ++ l2) = sends l1 ++ sends l2.
Proof.
  induction l1 as [|[ | | | ] l1 IH]; simpl; rewrite ?IH; reflexivity.
Qed.

Lemma sends_map_LSend (l : list Emitter) : sends (map LSend l) = l.
Proof.
  induction l as [|e l IH]; simpl; congruence.
Qed.

Lemma sends_ops (l : list label) : sends (ops l) = sends l.
Proof.
  induction l as [|[ | | | ] l IH]; simpl; rewrite ?IH; reflexivity.
Qed.

Lemma delivered_app (l1 l2 : list (Emitter * option error)) :
  delivered (l1 ++ l2) = delivered l1 ++ delivered l2.
Proof.
  induction l1 as [|[e [err|]] l1 IH]; simpl; rewrite ?IH; reflexivity.
Qed.

Lemma delivered_okr (l : list Emitter) : delivered (map okr l) = l.
Proof.
  induction l as [|e l IH]; simpl; congruence.
Qed.

Lemma delivered_eos (i : nat) : delivered (repeat eos i) = [].
Proof.
  induction i as [|i IH]; simpl; auto.
Qed.

Lemma prefix_firstn {A : Type} (n : nat) (l : list A) : prefix (firstn n l) l.
Proof.
  exists (skipn n l). symmetry. apply firstn_skipn.
Qed.

Lemma firstn_prefix {A : Type} (j : nat) (l1 l2 : list A) :
  prefix l1 l2 -> j <= length l1 -> firstn j l1 = firstn j l2.
Proof.
  intros [l3 ->] Hj. rewrite firstn_app.
  replace (j - length l1) with 0 by lia. simpl. now rewrite app_nil_r.
Qed.

Lemma skipn_nil_length {A : Type} (j : nat) (l : list A) :
  skipn j l = [] -> length l <= j.
Proof.
  intros H. pose proof (length_skipn j l) as E. rewrite H in E. simpl in E. lia.
Qed.

(** One more step of a goroutine extends its trace at the end. *)
Lemma trace_after_S (n : nat) : forall g g',
  after n g = Some g' ->
  trace (S n) g = trace n g ++ trace 1 g' /\ after (S n) g = after 1 g'.
Proof.
  induction n as [|n IH]; intros g g' H.
  - simpl in H. injection H as <-. split; [|reflexivity].
    simpl. destruct (code g (at_pc g)); reflexivity.
  - simpl in H. change (trace (S (S n)) g) with
      (match code g (at_pc g) with
       | Print emitter err k => LPrint emitter err :: trace (S n) (resume g k)
       | Send emitter k => LSend emitter :: trace (S n) (resume g k)
       | Close k => LClose :: trace (S n) (resume g k)
       | Exit => [LExit]
       end).
    change (after (S (S n)) g) with
      (match code g (at_pc g) with
       | Print _ _ k | Send _ k | Close k => after (S n) (resume g k)
       | Exit => None
       end).
    change (trace (S n) g) with
      (match code g (at_pc g) with
       | Print emitter err k => LPrint emitter err :: trace n (resume g k)
       | Send emitter k => LSend emitter :: trace n (resume g k)
       | Close k => LClose :: trace n (resume g k)
       | Exit => [LExit]
       end).
    destruct (code g (at_pc g)) as [e err k|e k|k|]; try discriminate;
      destruct (IH _ _ H) as [Ht Ha]; rewrite Ht, Ha; split; reflexivity.
Qed.

(** ** The channel discipline, for any producer *)

Section Channel.

Variable c0 : nat.
Variable g0 : goroutine.

Lemma fifo_inv_start :
  fifo_inv c0 g0 {| ch := make c0; producer := Some g0 |} start.
Proof.
  constructor; simpl.
  - reflexivity.
  - exists 0. split; reflexivity.
  - exists 0, 0. simpl. repeat split; try lia; intros; lia.
  - split; [discriminate | tauto].
  - lia.
Qed.

Lemma fifo_inv_tick (s : EventStream) (o : observed) :
  fifo_inv c0 g0 s o ->
  fifo_inv c0 g0 (snd (turn_step Tick s o)) (fst (turn_step Tick s o)).
Proof.
  intros Hinv.
  destruct Hinv as [Hcap [n [Hsent Hprod]] [j [i [Hgot [Hbuf [Hj Hi]]]]] Hcl Hroom] eqn:Hrec.
  clear Hrec.
  unfold turn_step, prod_step.
  destruct (producer s) as [g|] eqn:Hg;
    [|simpl; exact Hinv].
  symmetry in Hprod.
  destruct (trace_after_S n g0 g Hprod) as [Ht Ha].
  destruct (code g (at_pc g)) as [e err k|e k|k|] eqn:Hc.
  - (* Print *)
    simpl. constructor; simpl; auto.
    + exists (S n). rewrite Ht, Ha, Hsent. simpl. rewrite Hc. split; reflexivity.
    + exists j, i. rewrite sends_app. simpl. rewrite app_nil_r. auto.
    + rewrite Hcl, List.in_app_iff. simpl. intuition discriminate.
  - (* Send *)
    destruct (closed (ch s)) eqn:Hclosed;
      [simpl; exact Hinv|].
    destruct (length (buf (ch s)) <? cap (ch s)) eqn:Hlt;
      [|simpl; exact Hinv].
    apply Nat.ltb_lt in Hlt.
    simpl. constructor; simpl; auto.
    + exists (S n). rewrite Ht, Ha, Hsent. simpl. rewrite Hc. split; reflexivity.
    + exists j, i. rewrite sends_app. simpl.
      rewrite firstn_app, skipn_app.
      replace (j - length (sends (sent o))) with 0 by lia. simpl.
      rewrite app_nil_r, Hbuf.
      split; [assumption|]. split; [reflexivity|].
      split; [rewrite length_app; simpl; lia|].
      intros Hpos. destruct (Hi Hpos). congruence.
    + rewrite List.in_app_iff. simpl. split; [congruence|].
      intros [H|[H|[]]]; [|discriminate]. apply Hcl in H. congruence.
    + rewrite length_app. simpl. lia.
  - (* Close *)
    destruct (closed (ch s)) eqn:Hclosed;
      [simpl; exact Hinv|].
    simpl. constructor; simpl; auto.
    + exists (S n). rewrite Ht, Ha, Hsent. simpl. rewrite Hc. split; reflexivity.
    + exists j, i. rewrite sends_app. simpl. rewrite app_nil_r.
      split; [assumption|]. split; [assumption|]. split; [assumption|].
      intros Hpos. now destruct (Hi Hpos).
    + rewrite List.in_app_iff. simpl. tauto.
  - (* Exit *)
    simpl. constructor; simpl; auto.
    + exists (S n). rewrite Ht, Ha, Hsent. simpl. rewrite Hc. split; reflexivity.
    + exists j, i. rewrite sends_app. simpl. rewrite app_nil_r. auto.
    + rewrite Hcl, List.in_app_iff. simpl. intuition discriminate.
Qed.

Lemma fifo_inv_pull (s : EventStream) (o : observed) :
  fifo_inv c0 g0 s o ->
  fifo_inv c0 g0 (snd (turn_step Pull s o)) (fst (turn_step Pull s o)).
Proof.
  intros Hinv.
  destruct Hinv as [Hcap [n [Hsent Hprod]] [j [i [Hgot [Hbuf [Hj Hi]]]]] Hcl Hroom] eqn:Hrec.
  clear Hrec.
  unfold turn_step, Next, recv, handoff.
  destruct (buf (ch s)) as [|e b] eqn:Hb.
  - destruct (closed (ch s)) eqn:Hclosed.
    + (* closed and drained: the exhaustion signal *)
      simpl. constructor; simpl; auto.
      * exists n. rewrite app_nil_r. auto.
      * exists j, (S i). rewrite app_nil_r, Hgot, <- app_assoc.
        change [(@None Emittable, Some (NewError EndOfIteratorError))] with (repeat eos 1).
        rewrite <- repeat_app. replace (i + 1) with (S i) by lia.
        rewrite Hb, <- Hbuf. auto.
      * rewrite app_nil_r, Hclosed. exact Hcl.
      * rewrite Hb. simpl. lia.
    + destruct (producer s) as [g|] eqn:Hg; [|simpl; exact Hinv].
      symmetry in Hprod.
      destruct (trace_after_S n g0 g Hprod) as [Ht Ha].
      destruct (code g (at_pc g)) as [e err k|e k|k|] eqn:Hc;
        try (simpl; exact Hinv).
      (* rendezvous with the producer waiting at its send *)
      assert (Hi0 : i = 0).
      { destruct i; [reflexivity|].
        destruct (Hi ltac:(lia)). congruence. }
      subst i. symmetry in Hbuf. apply skipn_nil_length in Hbuf.
      simpl. constructor; simpl; auto.
      * exists (S n). rewrite Ht, Ha, Hsent. simpl. rewrite Hc. split; reflexivity.
      * exists (S j), 0. rewrite sends_app.
        change (sends [LSend e]) with [e].
        change (repeat eos 0) with (@nil (Emitter * option error)) in *.
        rewrite app_nil_r in *.
        rewrite firstn_all2 in Hgot by lia.
        rewrite firstn_all2 by (rewrite length_app; simpl; lia).
        rewrite skipn_all2 by (rewrite length_app; simpl; lia).
        rewrite Hgot, map_app.
        split; [reflexivity|]. split; [exact Hb|].
        split; [rewrite length_app; simpl; lia|]. intros; lia.
      * rewrite List.in_app_iff. simpl. split; [congruence|].
        intros [H|[H|[]]]; [|discriminate]. apply Hcl in H. congruence.
      * rewrite Hb. simpl. lia.
  - (* a buffered emitter *)
    assert (Hi0 : i = 0).
    { destruct i; [reflexivity|].
      destruct (Hi ltac:(lia)) as [_ H]. discriminate. }
    subst i.
    assert (Hjlt : j < length (sends (sent o))).
    { destruct (Nat.eq_dec j (length (sends (sent o)))) as [E|E]; [|lia].
      rewrite E, skipn_all in Hbuf. discriminate. }
    assert (Hsk : skipn (S j) (sends (sent o)) = b).
    { replace (S j) with (1 + j) by lia.
      rewrite <- skipn_skipn, <- Hbuf. reflexivity. }
    assert (Hfi : firstn (S j) (sends (sent o)) = firstn j (sends (sent o)) ++ [e]).
    { rewrite <- (firstn_skipn j (sends (sent o))) at 1.
      rewrite <- Hbuf, firstn_app, length_firstn.
      replace (S j - Nat.min j (length (sends (sent o)))) with 1 by lia.
      rewrite firstn_all2 by (rewrite length_firstn; lia).
      reflexivity. }
    simpl. constructor; simpl; auto.
    + exists n. rewrite app_nil_r. auto.
    + exists (S j), 0.
      change (repeat eos 0) with (@nil (Emitter * option error)) in *.
      rewrite !app_nil_r in *. rewrite Hfi, Hgot, map_app.
      split; [reflexivity|]. split; [now rewrite Hsk|].
      split; [lia|]. intros; lia.
    + rewrite app_nil_r. exact Hcl.
    + simpl in Hroom. lia.
Qed.

(** Every interleaving keeps the channel discipline. *)
Lemma fifo_inv_interleave (sched : list turn) : forall s o,
  fifo_inv c0 g0 s o ->
  fifo_inv c0 g0 (snd (interleave sched s o)) (fst (interleave sched s o)).
Proof.
  induction sched as [|t sched IH]; intros s o Hinv; [exact Hinv|].
  simpl. destruct (turn_step t s o) as [o' s'] eqn:E.
  apply IH.
  destruct t.
  - pose proof (fifo_inv_tick s o Hinv) as H. now rewrite E in H.
  - pose proof (fifo_inv_pull s o Hinv) as H. now rewrite E in H.
Qed.

End Channel.

(** ** Blocking pulls *)

Lemma pull_mono (f : nat) : forall s r s',
  pull f s = Returned r s' -> pull (S f) s = Returned r s'.
Proof.
  induction f as [|f IH]; intros s r s' H.
  - simpl in *. destruct (Next s) as [[r0 s0]|]; [exact H|].
    destruct (prod_step s); discriminate.
  - change (pull (S (S f)) s) with
      (match Next s with
       | Some (r, s') => Returned r s'
       | None => match prod_step s with
                 | Stepped _ s' => pull (S f) s'
                 | Blocked => Stuck
                 | Panicked => Crashed
                 end
       end).
    change (pull (S f) s) with
      (match Next s with
       | Some (r, s') => Returned r s'
       | None => match prod_step s with
                 | Stepped _ s' => pull f s'
                 | Blocked => Stuck
                 | Panicked => Crashed
                 end
       end) in H.
    destruct (Next s) as [[r0 s0]|]; [exact H|].
    destruct (prod_step s) as [l s1| |]; try discriminate.
    apply IH. exact H.
Qed.

Lemma pull_seq_mono (f n : nat) : forall s rs s',
  pull_seq f n s = (rs, Some s') -> pull_seq (S f) n s = (rs, Some s').
Proof.
  induction n as [|n IH]; intros s rs s' H; [exact H|].
  simpl in H. destruct (pull f s) as [r s1| | |] eqn:E; try discriminate.
  destruct (pull_seq f n s1) as [rs1 o1] eqn:E1.
  injection H as <- ->.
  change (pull_seq (S f) (S n) s) with
    (match pull (S f) s with
     | Returned r s' => let '(rs, o) := pull_seq (S f) n s' in (r :: rs, o)
     | _ => ([], None)
     end).
  rewrite (pull_mono _ _ _ _ E), (IH _ _ _ E1). reflexivity.
Qed.

Lemma pull_seq_mono_le (f f' n : nat) s rs s' :
  f <= f' -> pull_seq f n s = (rs, Some s') -> pull_seq f' n s = (rs, Some s').
Proof.
  induction 1 as [|f' _ IH]; intros H; [exact H|].
  apply pull_seq_mono, IH, H.
Qed.

(** A producer that feeds [l] serves a pull sequence with exactly [l] and
    then the exhaustion signal, whatever the capacity of the channel. *)
Lemma pull_seq_feeds (g : goroutine) (l : list Emitter) :
  feeds g l ->
  forall c, buf c = [] -> closed c = false ->
  exists F s',
    pull_seq F (S (length l)) {| ch := c; producer := Some g |}
      = (map okr l ++ [eos], Some s')
    /\ closed (ch s') = true /\ buf (ch s') = [] /\ cap (ch s') = cap c.
Proof.
  induction 1 as [g e k l Hc Hf IH | g e err k l Hc Hf IH | g k Hc Hk];
    intros c Hb Hcl.
  - destruct (IH c Hb Hcl) as [F [s' [Hseq Hfin]]].
    exists F, s'. split; [|exact Hfin].
    change (pull_seq F (S (length (e :: l))) {| ch := c; producer := Some g |}) with
      (match pull F {| ch := c; producer := Some g |} with
       | Returned r s' => let '(rs, o) := pull_seq F (S (length l)) s' in (r :: rs, o)
       | _ => ([], None)
       end).
    assert (Hp : pull F {| ch := c; producer := Some g |}
                 = Returned (okr e) {| ch := c; producer := Some (resume g k) |}).
    { destruct F; simpl; unfold Next, recv; simpl; rewrite Hb, Hcl, Hc; reflexivity. }
    rewrite Hp, Hseq. reflexivity.
  - destruct (IH c Hb Hcl) as [F [s' [Hseq Hfin]]].
    exists (S F), s'. split; [|exact Hfin].
    simpl in Hseq.
    destruct (pull F {| ch := c; producer := Some (resume g k) |}) as [r s1| | |] eqn:E;
      try discriminate.
    destruct (pull_seq F (length l) s1) as [rs o1] eqn:E1.
    injection Hseq as Hrs ->.
    change (pull_seq (S F) (S (length l)) {| ch := c; producer := Some g |}) with
      (match pull (S F) {| ch := c; producer := Some g |} with
       | Returned r s' => let '(rs, o) := pull_seq (S F) (length l) s' in (r :: rs, o)
       | _ => ([], None)
       end).
    assert (Hp : pull (S F) {| ch := c; producer := Some g |}
                 = pull F {| ch := c; producer := Some (resume g k) |}).
    { simpl. unfold Next, recv, prod_step. simpl. rewrite Hb, Hcl, Hc. reflexivity. }
    rewrite Hp, E, (pull_seq_mono _ _ _ _ _ E1), Hrs. reflexivity.
  - exists 1, {| ch := close c; producer := Some (resume g k) |}.
    split; [|simpl; auto].
    simpl. unfold Next, recv, prod_step. simpl. rewrite Hb, Hcl, Hc. simpl.
    rewrite Hb. reflexivity.
Qed.

(** What a feeding producer does, in any number of steps. *)
Lemma feeds_trace (g : goroutine) (l : list Emitter) :
  feeds g l ->
  forall n, prefix (ops (trace n g)) (map LSend l ++ [LClose; LExit])
            /\ (In LClose (trace n g) -> sends (trace n g) = l).
Proof.
  induction 1 as [g e k l Hc Hf IH | g e err k l Hc Hf IH | g k Hc Hk];
    intros [|n]; simpl;
    try (split; [eexists; reflexivity | intros []]);
    rewrite Hc; simpl.
  - destruct (IH n) as [[l3 E] Hs]. split.
    + exists l3. now rewrite E.
    + intros [H|H]; [discriminate|]. now rewrite (Hs H).
  - destruct (IH n) as [P Hs]. split; [exact P|].
    intros [H|H]; [discriminate|]. exact (Hs H).
  - split.
    + destruct n as [|n]; simpl.
      * exists [LExit]. reflexivity.
      * unfold resume at 1. simpl. rewrite Hk. simpl. exists []. reflexivity.
    + intros _. destruct n as [|n]; simpl; [reflexivity|].
      unfold resume at 1. simpl. rewrite Hk. reflexivity.
Qed.

(** The contract of a stream whose producer feeds [l], under every
    interleaving of producer and consumer. *)
Lemma feeds_interleave (g : goroutine) (l : list Emitter) (c : nat)
      (sched : list turn) (o : observed) (s : EventStream) :
  feeds g l ->
  interleave sched {| ch := make c; producer := Some g |} start = (o, s) ->
  prefix (ops (sent o)) (map LSend l ++ [LClose; LExit])
  /\ prefix (sends (sent o)) l
  /\ (exists j i, got o = map okr (firstn j l) ++ repeat eos i
                  /\ (0 < i -> length l <= j))
  /\ length (buf (ch s)) <= c.
Proof.
  intros Hf Hrun.
  pose proof (fifo_inv_interleave c g sched _ _ (fifo_inv_start c g)) as Hinv.
  rewrite Hrun in Hinv. simpl in Hinv.
  destruct Hinv as [_ [n [Hsent _]] [j [i [Hgot [Hbuf [Hj Hi]]]]] Hcl Hroom].
  destruct (feeds_trace g l Hf n) as [Hpre Hall].
  rewrite <- Hsent in Hpre, Hall.
  assert (Hsp : prefix (sends (sent o)) l).
  { destruct Hpre as [l3 E].
    apply (f_equal sends) in E.
    rewrite sends_app, sends_map_LSend, sends_app, sends_ops in E.
    simpl in E. rewrite app_nil_r in E.
    exists (sends l3). exact E. }
  split; [exact Hpre|]. split; [exact Hsp|]. split; [|exact Hroom].
  exists j, i. split.
  - rewrite Hgot, (firstn_prefix j _ _ Hsp Hj). reflexivity.
  - intros Hpos. destruct (Hi Hpos) as [Hc Hb].
    apply Hcl in Hc. rewrite (Hall Hc) in Hbuf.
    rewrite Hb in Hbuf. symmetry in Hbuf.
    now apply skipn_nil_length in Hbuf.
Qed.

(** ** The producers of [New] and [From] *)

Lemma new_feeds (l : list Emitter) : feeds (Go new_pc (NewLoop l) new_code) l.
Proof.
  induction l as [|e l IH].
  - apply (feeds_close (Go new_pc (NewLoop []) new_code) NewDone); reflexivity.
  - apply (feeds_send (Go new_pc (NewLoop (e :: l)) new_code) e (NewLoop l));
      [reflexivity | exact IH].
Qed.

Lemma new_trace (n : nat) : forall l,
  trace n (Go new_pc (NewLoop l) new_code) = firstn n (map LSend l ++ [LClose; LExit]).
Proof.
  induction n as [|n IH]; intros l; [reflexivity|].
  destruct l as [|e l]; simpl.
  - destruct n as [|n']; [reflexivity|]. simpl. now rewrite firstn_nil.
  - f_equal. apply IH.
Qed.

(** With room for all of them, the loop of [New] pushes every argument
    and closes without waiting for anybody. *)
Lemma new_run_producer (l : list Emitter) : forall c b,
  length b + length l <= c ->
  run_producer (length l + 2)
    {| ch := {| cap := c; buf := b; closed := false |};
       producer := Some (Go new_pc (NewLoop l) new_code) |}
  = (map LSend l ++ [LClose; LExit],
     {| ch := {| cap := c; buf := b ++ l; closed := true |}; producer := None |}).
Proof.
  induction l as [|e l IH]; intros c b Hle.
  - simpl. rewrite app_nil_r. reflexivity.
  - simpl in Hle.
    change (length (e :: l) + 2) with (S (length l + 2)).
    cbn [run_producer]. unfold prod_step. cbn [producer ch closed buf cap at_pc code new_code].
    assert (Hlt : (length b <? c) = true) by (apply Nat.ltb_lt; lia).
    rewrite Hlt.
    change (resume (Go new_pc (NewLoop (e :: l)) new_code) (NewLoop l))
      with (Go new_pc (NewLoop l) new_code).
    unfold with_buf. cbn [cap buf closed].
    rewrite IH by (rewrite length_app; simpl; lia).
    rewrite <- app_assoc. reflexivity.
Qed.

Lemma advance_shift (k : nat) (iter : Iterator) :
  advance (S k) iter = advance k (snd (Iterator_Next iter)).
Proof.
  induction k as [|k IH]; [reflexivity|].
  change (advance (S (S k)) iter) with (snd (Iterator_Next (advance (S k) iter))).
  rewrite IH. reflexivity.
Qed.

Lemma pulls_cons (n : nat) (iter : Iterator) :
  pulls (S n) iter = fst (Iterator_Next iter) :: pulls n (snd (Iterator_Next iter)).
Proof.
  unfold pulls. rewrite <- cons_seq, <- seq_shift, map_cons, map_map.
  f_equal. apply map_ext. intros k. now rewrite advance_shift.
Qed.

(** An iterator whose first failing pull is the one after [n] successes
    makes the loop of [From] feed the emitters of those [n] pulls. *)
Lemma from_feeds (n : nat) : forall iter emitter err,
  all_ok (pulls n iter) ->
  fst (Iterator_Next (advance n iter)) = (emitter, Some err) ->
  feeds (Go from_pc (FromPull iter) from_code) (map fst (pulls n iter)).
Proof.
  induction n as [|n IH]; intros iter emitter err Hok Hfail.
  - simpl in Hfail. unfold pulls. simpl.
    destruct (Iterator_Next iter) as [[e0 err0] iter'] eqn:E.
    simpl in Hfail. injection Hfail as -> ->.
    apply (feeds_print (Go from_pc (FromPull iter) from_code) emitter (Some err) FromClose).
    + simpl. rewrite E. reflexivity.
    + apply (feeds_close (Go from_pc FromClose from_code) FromDone); reflexivity.
  - rewrite pulls_cons in *. rewrite advance_shift in Hfail.
    destruct (Iterator_Next iter) as [[e0 err0] iter'] eqn:E.
    simpl in *. inversion Hok as [|r rs Hr Hrs]; subst. simpl in Hr. subst err0.
    apply (feeds_print (Go from_pc (FromPull iter) from_code) e0 None (FromSend e0 iter')).
    + simpl. rewrite E. reflexivity.
    + apply (feeds_send (Go from_pc (FromSend e0 iter') from_code) e0 (FromPull iter'));
        [reflexivity|].
      exact (IH iter' emitter err Hrs Hfail).
Qed.

(** Whatever the iterator does, what the loop of [From] has sent after
    any number of steps is the emitters of a run of successful pulls. *)
Lemma from_trace_sends (n : nat) : forall iter,
  (exists k, all_ok (pulls k iter)
             /\ sends (trace n (Go from_pc (FromPull iter) from_code)) = map fst (pulls k iter))
  /\ (forall emitter, exists k, all_ok (pulls k iter)
             /\ (sends (trace n (Go from_pc (FromSend emitter iter) from_code)) = []
                 \/ sends (trace n (Go from_pc (FromSend emitter iter) from_code))
                    = emitter :: map fst (pulls k iter))).
Proof.
  induction n as [|n IH]; intros iter.
  - split; [|intros e]; exists 0; (split; [constructor|]); simpl; auto.
  - split.
    + simpl. destruct (Iterator_Next iter) as [[e0 [err0|]] iter'] eqn:E; simpl.
      * exists 0. split; [constructor|].
        destruct n as [|[|n]]; reflexivity.
      * destruct (proj2 (IH iter') e0) as [k [Hok [Hs|Hs]]].
        -- exists 0. split; [constructor|].
           unfold resume. simpl. exact Hs.
        -- exists (S k). rewrite pulls_cons, E. simpl. split.
           ++ constructor; [reflexivity | exact Hok].
           ++ unfold resume. simpl. exact Hs.
    + intros e. simpl.
      destruct (proj1 (IH iter)) as [k [Hok Hs]].
      exists k. split; [exact Hok|]. right.
      unfold resume. simpl. now rewrite Hs.
Qed.

(** On a channel without buffer the producer alone never completes a
    send. *)
Lemma unbuffered_alone (n : nat) : forall s,
  cap (ch s) = 0 -> sends (fst (run_producer n s)) = [].
Proof.
  induction n as [|n IH]; intros s Hcap; [reflexivity|].
  simpl. unfold prod_step.
  destruct (producer s) as [g|]; [|reflexivity].
  destruct (code g (at_pc g)) as [e err k|e k|k|].
  - specialize (IH {| ch := ch s; producer := Some (resume g k) |} Hcap).
    destruct (run_producer n _) as [ls s'']. simpl in *. exact IH.
  - destruct (closed (ch s)); [reflexivity|].
    rewrite Hcap. simpl. reflexivity.
  - destruct (closed (ch s)); [reflexivity|].
    specialize (IH {| ch := close (ch s); producer := Some (resume g k) |} Hcap).
    destruct (run_producer n _) as [ls s'']. simpl in *. exact IH.
  - specialize (IH {| ch := ch s; producer := None |} Hcap).
    destruct (run_producer n _) as [ls s'']. simpl in *. exact IH.
Qed.

(** On a channel without buffer every send is a hand-off to a pull. *)
Lemma unbuffered_handoff (g : goroutine) (sched : list turn) (o : observed) (s : EventStream) :
  interleave sched {| ch := make 0; producer := Some g |} start = (o, s) ->
  buf (ch s) = [] /\ sends (sent o) = delivered (got o).
Proof.
  intros Hrun.
  pose proof (fifo_inv_interleave 0 g sched _ _ (fifo_inv_start 0 g)) as Hinv.
  rewrite Hrun in Hinv. simpl in Hinv.
  destruct Hinv as [_ _ [j [i [Hgot [Hbuf [Hj _]]]]] _ Hroom].
  assert (Hb : buf (ch s) = []).
  { destruct (buf (ch s)); [reflexivity | simpl in Hroom; lia]. }
  split; [exact Hb|].
  rewrite Hb in Hbuf. symmetry in Hbuf. apply skipn_nil_length in Hbuf.
  rewrite Hgot, delivered_app, delivered_okr, delivered_eos, app_nil_r.
  rewrite firstn_all2 by lia. reflexivity.
Qed.

(** ** [EventStream.Next] *)

(** C3, as stated, fails: [Next] hands out whatever was pushed, so a nil
    emitter that was pushed comes back as a nil emitter with a nil error
    while the stream is neither closed nor drained. *)
Lemma Next_can_return_nil_emitter :
  ~ (forall evs emitter evs',
       Next evs = Some ((emitter, None), evs') -> emitter <> None).
Proof.
  intros H.
  apply (H (snd (run_producer 1 (New [None]))) None
           {| ch := make 1; producer := Some (Go new_pc (NewLoop []) new_code) |}).
  - reflexivity.
  - reflexivity.
Qed.

(** The cases of a channel receive, as [Next] goes through them. *)
Ltac next_cases evs :=
  let g := fresh "g" in
  let Hc := fresh "Hc" in
  destruct (buf (ch evs)) as [|? ?];
  [ destruct (closed (ch evs));
    [ | destruct (producer evs) as [g|];
        [ destruct (code g (at_pc g)) eqn:Hc | ] ]
  | ].

(** C3 (amended): [Next] returns the emitter at the head of the stream
    exactly as it was pushed (nil if nil was pushed) with a nil error
    whenever one is available; it returns a nil emitter with the
    end-of-stream error exactly when the stream is closed and drained; no
    other error is ever returned, and a result with a nil error is always
    an emitter taken from the buffer or from the producer's pending
    send. *)
Theorem Next_spec (evs : EventStream) :
  (forall emitter b,
      buf (ch evs) = emitter :: b ->
      Next evs = Some ((emitter, None),
                       {| ch := with_buf (ch evs) b; producer := producer evs |}))
  /\ (forall g emitter k,
      buf (ch evs) = [] -> closed (ch evs) = false ->
      producer evs = Some g -> code g (at_pc g) = Send emitter k ->
      Next evs = Some ((emitter, None),
                       {| ch := ch evs; producer := Some (resume g k) |}))
  /\ (buf (ch evs) = [] /\ closed (ch evs) = true
      <-> Next evs = Some ((None, Some (NewError EndOfIteratorError)), evs))
  /\ (forall emitter err evs',
      Next evs = Some ((emitter, Some err), evs') ->
      emitter = None /\ err = NewError EndOfIteratorError /\ evs' = evs
      /\ buf (ch evs) = [] /\ closed (ch evs) = true)
  /\ (forall emitter evs',
      Next evs = Some ((emitter, None), evs') ->
      (exists b, buf (ch evs) = emitter :: b)
      \/ (buf (ch evs) = [] /\ closed (ch evs) = false
          /\ exists g k, producer evs = Some g /\ code g (at_pc g) = Send emitter k)).
Proof.
  unfold Next, recv.
  split; [|split; [|split; [|split]]].
  - intros emitter b Hb. now rewrite Hb.
  - intros g emitter k Hb Hcl Hg Hc. now rewrite Hb, Hcl, Hg, Hc.
  - split.
    + intros [Hb Hcl]. now rewrite Hb, Hcl.
    + next_cases evs; intros H; try discriminate. auto.
  - intros emitter err evs'. next_cases evs; intros H; try discriminate.
    injection H as <- <- <-. auto.
  - intros emitter evs'. next_cases evs; intros H; try discriminate.
    + right. injection H as -> _. repeat split. eauto.
    + left. injection H as -> _. eauto.
Qed.

Lemma Next_spec_witness :
  let a := Some (EmitValue (ItemStr "a")) in
  let evs := snd (run_producer 2 (New [a; None])) in
  buf (ch evs) = [a; None]
  /\ Next evs = Some ((a, None),
                     {| ch := with_buf (ch evs) [None]; producer := producer evs |}).
Proof.
  intros a evs. split; [reflexivity|].
  exact (proj1 (Next_spec evs) a [None] eq_refl).
Defined.

(** ** [New] *)

Lemma New_nonempty (emitters : list Emitter) :
  emitters <> [] ->
  New emitters = {| ch := make (length emitters);
                    producer := Some (Go new_pc (NewLoop emitters) new_code) |}.
Proof.
  intros H. unfold New. destruct emitters; [contradiction | reflexivity].
Qed.

(** C1, as stated, fails at the empty argument list: no producer is
    spawned, so nothing ever closes the stream and no pull sequence ever
    yields the exhaustion signal. *)
Lemma New_empty_is_never_closed :
  ~ (forall emitters : list Emitter, exists fuel,
       fst (pull_seq fuel (S (length emitters)) (New emitters))
       = map okr emitters ++ [eos]).
Proof.
  intros H. destruct (H []) as [fuel Hf].
  destruct fuel; discriminate.
Qed.

(** C1 (amended): for every non-empty list of arguments the producer of
    [New] pushes the arguments in order, closes the stream and returns,
    without needing a consumer; a pull sequence yields exactly the
    arguments in order and then the exhaustion signal, and under every
    interleaving what has been pulled is a prefix of that.  For the empty
    list no producer is spawned: the stream stays open and empty and a
    pull waits for ever. *)
Theorem New_spec (emitters : list Emitter) :
  (emitters <> [] ->
     run_producer (length emitters + 2) (New emitters)
     = (map LSend emitters ++ [LClose; LExit],
        {| ch := {| cap := length emitters; buf := emitters; closed := true |};
           producer := None |})
     /\ (exists F, forall fuel, F <= fuel -> exists s',
           pull_seq fuel (S (length emitters)) (New emitters)
           = (map okr emitters ++ [eos], Some s')
           /\ closed (ch s') = true /\ buf (ch s') = [])
     /\ (forall sched o s,
           interleave sched (New emitters) start = (o, s) ->
           prefix (sent o) (map LSend emitters ++ [LClose; LExit])
           /\ exists j i, got o = map okr (firstn j emitters) ++ repeat eos i
                          /\ (0 < i -> length emitters <= j)))
  /\ (emitters = [] ->
     New emitters = {| ch := make 0; producer := None |}
     /\ (forall n, run_producer n (New emitters) = ([], New emitters))
     /\ (forall fuel, pull fuel (New emitters) = Stuck)
     /\ (forall sched, interleave sched (New emitters) start = (start, New emitters))).
Proof.
  split.
  - intros Hne. rewrite (New_nonempty _ Hne). split; [|split].
    + apply (new_run_producer emitters (length emitters) []). simpl. lia.
    + destruct (pull_seq_feeds _ _ (new_feeds emitters) (make (length emitters))
                  eq_refl eq_refl) as [F [s' [Hseq [Hc [Hb _]]]]].
      exists F. intros fuel Hle. exists s'. split; [|split; assumption].
      exact (pull_seq_mono_le _ _ _ _ _ _ Hle Hseq).
    + intros sched o s Hrun.
      destruct (feeds_interleave _ _ _ _ _ _ (new_feeds emitters) Hrun)
        as [_ [_ [Hgot _]]].
      split; [|exact Hgot].
      pose proof (fifo_inv_interleave _ _ sched _ _
                    (fifo_inv_start (length emitters)
                       (Go new_pc (NewLoop emitters) new_code))) as Hinv.
      rewrite Hrun in Hinv. destruct Hinv as [_ [n [Hsent _]] _ _ _].
      simpl in Hsent. rewrite Hsent, new_trace. apply prefix_firstn.
  - intros ->. split; [reflexivity|]. split; [|split].
    + intros [|n]; reflexivity.
    + intros [|fuel]; reflexivity.
    + induction sched as [|[|] sched IH]; [reflexivity | exact IH | exact IH].
Qed.

Lemma New_spec_witness :
  let emitters := [Some (EmitValue (ItemInt 1)); None; Some (EmitError (ErrorString "boom"))] in
  emitters <> []
  /\ run_producer (length emitters + 2) (New emitters)
     = (map LSend emitters ++ [LClose; LExit],
        {| ch := {| cap := length emitters; buf := emitters; closed := true |};
           producer := None |}).
Proof.
  split; [discriminate|].
  apply (New_spec [Some (EmitValue (ItemInt 1)); None; Some (EmitError (ErrorString "boom"))]).
  discriminate.
Defined.

(** ** [From] *)

(** C2: whatever the iterator, what [From] has forwarded and what has
    been pulled from its stream at any point of any interleaving are the
    emitters of a run of successful pulls, in pull order.  When the first
    failing pull comes after [n] successes, the producer prints, forwards
    those [n] emitters, closes and returns; a pull sequence yields
    exactly them and then the exhaustion signal, whose error is the
    end-of-stream error and never the iterator's own. *)
Theorem From_spec (iter : Iterator) :
  (forall sched o s,
      interleave sched (From iter) start = (o, s) ->
      exists k, all_ok (pulls k iter)
                /\ sends (sent o) = map fst (pulls k iter)
                /\ delivered (got o) = map fst (pulls k iter))
  /\ (forall n emitter err,
      all_ok (pulls n iter) ->
      fst (Iterator_Next (advance n iter)) = (emitter, Some err) ->
      (exists F, forall fuel, F <= fuel -> exists s',
          pull_seq fuel (S n) (From iter)
          = (map okr (map fst (pulls n iter)) ++ [eos], Some s')
          /\ closed (ch s') = true /\ buf (ch s') = [])
      /\ (forall sched o s,
          interleave sched (From iter) start = (o, s) ->
          prefix (ops (sent o)) (map LSend (map fst (pulls n iter)) ++ [LClose; LExit])
          /\ exists j i, got o = map okr (firstn j (map fst (pulls n iter))) ++ repeat eos i
                         /\ (0 < i -> n <= j))).
Proof.
  split.
  - intros sched o s Hrun.
    destruct (unbuffered_handoff _ _ _ _ Hrun) as [_ Hd].
    pose proof (fifo_inv_interleave _ _ sched _ _
                  (fifo_inv_start 0 (Go from_pc (FromPull iter) from_code))) as Hinv.
    unfold From in Hrun. simpl in Hrun. rewrite Hrun in Hinv.
    destruct Hinv as [_ [n [Hsent _]] _ _ _]. simpl in Hsent.
    destruct (proj1 (from_trace_sends n iter)) as [k [Hok Hs]].
    exists k. rewrite <- Hd, Hsent. auto.
  - intros n emitter err Hok Hfail.
    pose proof (from_feeds n iter emitter err Hok Hfail) as Hf.
    assert (Hlen : length (map fst (pulls n iter)) = n).
    { unfold pulls. now rewrite !length_map, length_seq. }
    split.
    + destruct (pull_seq_feeds _ _ Hf (make 0) eq_refl eq_refl)
        as [F [s' [Hseq [Hc [Hb _]]]]].
      rewrite Hlen in Hseq.
      exists F. intros fuel Hle. exists s'. split; [|split; assumption].
      exact (pull_seq_mono_le _ _ _ _ _ _ Hle Hseq).
    + intros sched o s Hrun.
      destruct (feeds_interleave _ _ _ _ _ _ Hf Hrun) as [Hops [_ [Hgot _]]].
      rewrite Hlen in Hgot. auto.
Qed.

Lemma From_spec_witness :
  let a := Some (EmitValue (ItemStr "a")) in
  let b := Some (EmitValue (ItemStr "b")) in
  let c := Some (EmitValue (ItemStr "c")) in
  let iter := slice_iterator [a; b; c] in
  (all_ok (pulls 3 iter)
   /\ fst (Iterator_Next (advance 3 iter)) = (None, Some (NewError EndOfIteratorError)))
  /\ exists F, forall fuel, F <= fuel -> exists s',
       pull_seq fuel 4 (From iter) = ([okr a; okr b; okr c; eos], Some s')
       /\ closed (ch s') = true /\ buf (ch s') = [].
Proof.
  intros a b c iter.
  assert (Hok : all_ok (pulls 3 iter)) by (repeat constructor).
  split; [split; [exact Hok | reflexivity]|].
  exact (proj1 (proj2 (From_spec iter) 3 None (NewError EndOfIteratorError) Hok eq_refl)).
Defined.

(** C10: when the pull after [n] successful ones fails, the emitter that
    came with the failure, nil or not, is dropped: under every
    interleaving what [From] has sent, and what has been pulled from its
    stream, is a prefix of the emitters of the [n] successful pulls, so
    the stream never holds more than those [n]. *)
Theorem From_drops_emitter_of_failing_pull
  (iter : Iterator) (n : nat) (emitter : Emitter) (err : error)
  (Hok : all_ok (pulls n iter))
  (Hfail : fst (Iterator_Next (advance n iter)) = (emitter, Some err)) :
  forall sched o s,
    interleave sched (From iter) start = (o, s) ->
    prefix (sends (sent o)) (map fst (pulls n iter))
    /\ prefix (delivered (got o)) (map fst (pulls n iter))
    /\ length (sends (sent o)) <= n
    /\ buf (ch s) = [].
Proof.
  intros sched o s Hrun.
  pose proof (from_feeds n iter emitter err Hok Hfail) as Hf.
  destruct (feeds_interleave _ _ _ _ _ _ Hf Hrun) as [_ [Hpre _]].
  destruct (unbuffered_handoff _ _ _ _ Hrun) as [Hb Hd].
  split; [exact Hpre|]. split; [now rewrite <- Hd|]. split; [|exact Hb].
  destruct Hpre as [l3 E]. apply (f_equal (@length _)) in E.
  unfold pulls in E. rewrite !length_map, length_seq, length_app in E. lia.
Qed.

Lemma From_drops_emitter_of_failing_pull_witness :
  let a := Some (EmitValue (ItemInt 1)) in
  let stray := Some (EmitValue (ItemInt 99)) in
  let iter := script_iterator [(a, None); (stray, Some (ErrorString "broken pipe"))] in
  let r := interleave [Pull; Tick; Tick; Pull; Tick; Pull; Tick; Tick; Pull; Pull]
                      (From iter) start in
  (all_ok (pulls 1 iter)
   /\ fst (Iterator_Next (advance 1 iter)) = (stray, Some (ErrorString "broken pipe")))
  /\ prefix (sends (sent (fst r))) [a]
  /\ prefix (delivered (got (fst r))) [a]
  /\ length (sends (sent (fst r))) <= 1
  /\ buf (ch (snd r)) = [].
Proof.
  intros a stray iter r.
  assert (Hok : all_ok (pulls 1 iter)) by (repeat constructor).
  split; [split; [exact Hok | reflexivity]|].
  exact (From_drops_emitter_of_failing_pull iter 1 stray (ErrorString "broken pipe")
           Hok eq_refl _ (fst r) (snd r) (surjective_pairing r)).
Defined.

(** ** Buffering *)

(** C9: the channel of [New] has room for exactly the arguments, so its
    producer, when there is one, pushes them all and closes with no
    consumer in sight; the channel of [From] has no buffer, so its
    producer alone never completes a send, the channel never holds an
    emitter, and every emitter sent is one a pull received in the same
    step. *)
Theorem stream_capacities (emitters : list Emitter) (iter : Iterator) :
  cap (ch (New emitters)) = length emitters
  /\ (forall g, producer (New emitters) = Some g ->
      run_producer (length emitters + 2) (New emitters)
      = (map LSend emitters ++ [LClose; LExit],
         {| ch := {| cap := length emitters; buf := emitters; closed := true |};
            producer := None |}))
  /\ cap (ch (From iter)) = 0
  /\ (forall n, sends (fst (run_producer n (From iter))) = [])
  /\ (forall sched o s,
      interleave sched (From iter) start = (o, s) ->
      buf (ch s) = [] /\ sends (sent o) = delivered (got o)).
Proof.
  split; [|split; [|split; [|split]]].
  - unfold New. destruct (0 <? length emitters); reflexivity.
  - intros g Hg.
    destruct emitters as [|e l]; [discriminate|].
    rewrite New_nonempty by discriminate.
    apply (new_run_producer (e :: l) (length (e :: l)) []). simpl. lia.
  - reflexivity.
  - intros n. apply unbuffered_alone. reflexivity.
  - intros sched o s Hrun. exact (unbuffered_handoff _ _ _ _ Hrun).
Qed.

Lemma stream_capacities_witness :
  let a := Some (EmitValue (ItemInt 1)) in
  let b := Some (EmitValue (ItemInt 2)) in
  cap (ch (New [a; b])) = 2
  /\ run_producer 4 (New [a; b])
     = ([LSend a; LSend b; LClose; LExit],
        {| ch := {| cap := 2; buf := [a; b]; closed := true |}; producer := None |})
  /\ cap (ch (From (slice_iterator [a; b]))) = 0
  /\ sends (fst (run_producer 4 (From (slice_iterator [a; b])))) = [].
Proof.
  intros a b.
  destruct (stream_capacities [a; b] (slice_iterator [a; b])) as [H1 [H2 [H3 [H4 _]]]].
  split; [exact H1|]. split; [exact (H2 _ eq_refl)|]. split; [exact H3 | exact (H4 4)].
Defined.

(** ** The dispatch loop *)

Section DispatchLoop.

Context {W : Type}.










Lemma errored_is_final (sched : list dturn) : forall t : task W,
  st t = Errored ->
  st (run sched t) = Errored
  /\ events (run sched t) = events t
  /\ world (run sched t) = world t.
Proof.
  induction sched as [|d sched IH]; intros t Hst; [auto|].
  simpl.
  assert (H : st (dturn_step d t) = Errored
              /\ events (dturn_step d t) = events t
              /\ world (dturn_step d t) = world t).
  { destruct d; simpl.
    - destruct (prod_step (source t)); simpl; auto.
    - unfold dispatch_step. rewrite Hst. auto.
    - auto. }
  destruct H as [H1 [H2 H3]].
  destruct (IH _ H1) as [I1 [I2 I3]]. rewrite I1, I2, I3. auto.
Qed.


End DispatchLoop.



(** The scenario of [TestStartMethodWithFakeExternalCalls] under the
    dispatch loop: the three responses are delivered in completion order,
    then the error, then the done handler appends its own response; the
    subscription ends in [Errored], and however long the loop is left
    running the captured state is what the test expects. *)
Example fake_external_calls_run (n : nat) :
  let t := run (repeat DispatchStep (4 + n))
               (spawn observable_test.source observable_test.watcher ([], [])) in
  st t = Errored
  /\ world t = ([200; 404; 500; 999]%Z, [ErrorString "Some kind of error"])
  /\ observable_test.expected (world t).
Proof.
  intros t. subst t. rewrite repeat_app. unfold run. rewrite fold_left_app.
  set (t4 := fold_left _ (repeat DispatchStep 4) _).
  assert (H4 : st t4 = Errored) by reflexivity.
  destruct (errored_is_final (repeat DispatchStep n) t4 H4) as [Hst [Hev Hw]].
  unfold run in Hst, Hev, Hw. rewrite Hst, Hw.
  split; [reflexivity|]. split; [reflexivity|].
  vm_compute. repeat split.
Qed.

(** ** [Subscribe] *)

(** C5: an observer with no slot set makes [Subscribe] fail at once with
    InvalidObserver, without a Subscription and without spawning a task;
    an observer with at least one slot set gets a nil error, a
    Subscription that is not disposed, and a dispatch task that is spawned
    in its initial state. *)
Theorem Subscribe_validates_observer {W : Type} (o : Observable) (ob : Observer W) (w : W) :
  (NextHandler ob = None /\ ErrHandler ob = None /\ DoneHandler ob = None ->
   Subscribe o ob w = (None, Some (NewError InvalidObserver), None))
  /\ (NextHandler ob <> None \/ ErrHandler ob <> None \/ DoneHandler ob <> None ->
      exists sub t,
        Subscribe o ob w = (Some sub, None, Some t)
        /\ disposed sub = false
        /\ t = spawn o ob w
        /\ st t = Active /\ events t = [] /\ world t = w /\ subscription t = sub).
Proof.
  unfold Subscribe. split.
  - intros [-> [-> ->]]. reflexivity.
  - intros H. exists {| disposed := false |}, (spawn o ob w).
    destruct (NextHandler ob), (ErrHandler ob), (DoneHandler ob);
      try (repeat split; reflexivity).
    destruct H as [H|[H|H]]; contradiction.
Qed.

Lemma Subscribe_validates_observer_witness :
  let nothing : Observer observable_test.captured :=
    {| NextHandler := None; ErrHandler := None; DoneHandler := None |} in
  Subscribe observable_test.source nothing ([], [])
  = (None, Some (NewError InvalidObserver), None)
  /\ exists sub t,
      Subscribe observable_test.source observable_test.watcher ([], [])
      = (Some sub, None, Some t)
      /\ disposed sub = false
      /\ t = spawn observable_test.source observable_test.watcher ([], [])
      /\ st t = Active /\ events t = [] /\ world t = ([], []) /\ subscription t = sub.
Proof.
  intros nothing. split.
  - exact (proj1 (Subscribe_validates_observer observable_test.source nothing ([], []))
                 (conj eq_refl (conj eq_refl eq_refl))).
  - apply (proj2 (Subscribe_validates_observer observable_test.source
                    observable_test.watcher ([], []))).
    left. discriminate.
Defined.

(** ** [Range] *)

Lemma range_values_nil (start end_ : Z) :
  (end_ <= start)%Z -> range_values start end_ = [].
Proof.
  intros H. unfold range_values.
  replace (Z.to_nat (end_ - start)) with 0 by lia. reflexivity.
Qed.

Lemma range_values_cons (start end_ : Z) :
  (start < end_)%Z -> range_values start end_ = start :: range_values (start + 1) end_.
Proof.
  intros H. unfold range_values.
  replace (Z.to_nat (end_ - start)) with (S (Z.to_nat (end_ - (start + 1)))) by lia.
  rewrite <- cons_seq, <- seq_shift, map_cons, map_map. f_equal.
  - simpl. lia.
  - apply map_ext. intros k. lia.
Qed.

Lemma range_feeds (n : nat) : forall start end_,
  Z.to_nat (end_ - start) = n ->
  feeds (Go range_pc (RangeLoop start) (range_code end_))
        (map value_emitter (range_values start end_)).
Proof.
  induction n as [|n IH]; intros start end_ Hn.
  - rewrite range_values_nil by lia. simpl.
    apply (feeds_close (Go range_pc (RangeLoop start) (range_code end_)) RangeDone).
    + simpl. destruct (Z.ltb_spec start end_); [lia | reflexivity].
    + reflexivity.
  - rewrite range_values_cons by lia. simpl.
    apply (feeds_send (Go range_pc (RangeLoop start) (range_code end_))
             (value_emitter start) (RangeLoop (start + 1))).
    + simpl. destruct (Z.ltb_spec start end_); [reflexivity | lia].
    + apply IH. lia.
Qed.

(** C6: [Range start end_] emits [start], [start+1], ..., [end_ - 1] in
    increasing order and then closes; when [end_ <= start] it emits
    nothing and the first thing its producer does is close.  This holds
    for a pull sequence and, as a prefix, under every interleaving and
    for every buffer size. *)
Theorem Range_spec (capacity : nat) (start end_ : Z) :
  ((start < end_)%Z ->
     length (range_values start end_) = Z.to_nat (end_ - start)
     /\ (forall k, k < Z.to_nat (end_ - start) ->
                   nth k (range_values start end_) 0%Z = (start + Z.of_nat k)%Z)
     /\ (exists F, forall fuel, F <= fuel -> exists s',
           pull_seq fuel (S (Z.to_nat (end_ - start))) (stream (Range capacity start end_))
           = (map okr (map value_emitter (range_values start end_)) ++ [eos], Some s')
           /\ closed (ch s') = true /\ buf (ch s') = [])
     /\ (forall sched o s,
           interleave sched (stream (Range capacity start end_)) eventstream.start = (o, s) ->
           prefix (ops (sent o))
                  (map LSend (map value_emitter (range_values start end_)) ++ [LClose; LExit])
           /\ exists j i,
               got o = map okr (firstn j (map value_emitter (range_values start end_)))
                       ++ repeat eos i
               /\ (0 < i -> Z.to_nat (end_ - start) <= j)))
  /\ ((end_ <= start)%Z ->
     range_values start end_ = []
     /\ trace 2 (Go range_pc (RangeLoop start) (range_code end_)) = [LClose; LExit]
     /\ (exists F, forall fuel, F <= fuel -> exists s',
           pull_seq fuel 1 (stream (Range capacity start end_)) = ([eos], Some s')
           /\ closed (ch s') = true /\ buf (ch s') = [])
     /\ (forall sched o s,
           interleave sched (stream (Range capacity start end_)) eventstream.start = (o, s) ->
           sends (sent o) = [] /\ delivered (got o) = [])).
Proof.
  pose proof (range_feeds _ start end_ eq_refl) as Hf.
  assert (Hlen : length (range_values start end_) = Z.to_nat (end_ - start)).
  { unfold range_values. now rewrite length_map, length_seq. }
  assert (Hpull : exists F, forall fuel, F <= fuel -> exists s',
             pull_seq fuel (S (Z.to_nat (end_ - start))) (stream (Range capacity start end_))
             = (map okr (map value_emitter (range_values start end_)) ++ [eos], Some s')
             /\ closed (ch s') = true /\ buf (ch s') = []).
  { destruct (pull_seq_feeds _ _ Hf (make capacity) eq_refl eq_refl)
      as [F [s' [Hseq [Hc [Hb _]]]]].
    rewrite length_map, Hlen in Hseq.
    exists F. intros fuel Hle. exists s'. split; [|split; assumption].
    exact (pull_seq_mono_le _ _ _ _ _ _ Hle Hseq). }
  split.
  - intros Hlt. split; [exact Hlen|]. split; [|split; [exact Hpull|]].
    + intros k Hk. unfold range_values.
      rewrite (nth_indep _ 0%Z (start + Z.of_nat 0)%Z)
        by (now rewrite length_map, length_seq).
      rewrite (map_nth (fun k => (start + Z.of_nat k)%Z)), seq_nth by exact Hk.
      reflexivity.
    + intros sched o s Hrun.
      destruct (feeds_interleave _ _ _ _ _ _ Hf Hrun) as [Hops [_ [Hgot _]]].
      rewrite length_map, Hlen in Hgot. auto.
  - intros Hle.
    pose proof (range_values_nil _ _ Hle) as Hnil.
    split; [exact Hnil|]. split; [|split].
    + simpl. destruct (Z.ltb_spec start end_); [lia | reflexivity].
    + destruct Hpull as [F HF]. exists F. intros fuel Hfu.
      destruct (HF fuel Hfu) as [s' H]. exists s'.
      replace (Z.to_nat (end_ - start)) with 0 in H by lia.
      rewrite Hnil in H. exact H.
    + intros sched o s Hrun.
      destruct (feeds_interleave _ _ _ _ _ _ Hf Hrun) as [_ [Hpre [[j [i [Hgot _]]] _]]].
      rewrite Hnil in *. simpl in *.
      split.
      * destruct Hpre as [l3 E]. destruct (sends (sent o)); [reflexivity | discriminate].
      * rewrite Hgot, firstn_nil. simpl. apply delivered_eos.
Qed.

Lemma Range_spec_witness :
  ((1 < 5)%Z
   /\ exists F, forall fuel, F <= fuel -> exists s',
       pull_seq fuel 5 (stream (Range 0 1 5))
       = (map okr (map value_emitter [1; 2; 3; 4]%Z) ++ [eos], Some s')
       /\ closed (ch s') = true /\ buf (ch s') = [])
  /\ ((5 <= 5)%Z
      /\ exists F, forall fuel, F <= fuel -> exists s',
          pull_seq fuel 1 (stream (Range 0 5 5)) = ([eos], Some s')
          /\ closed (ch s') = true /\ buf (ch s') = []).
Proof.
  split; (split; [lia|]).
  - exact (proj1 (proj2 (proj2 (proj1 (Range_spec 0 1 5) eq_refl)))).
  - assert (H : (5 <= 5)%Z) by lia.
    exact (proj1 (proj2 (proj2 (proj2 (Range_spec 0 5 5) H)))).
Defined.

(** ** [Start] *)

Lemma set_task_length (i : nat) (t : start_task) : forall ts,
  length (set_task i t ts) = length ts.
Proof.
  induction i as [|i IH]; intros [|t0 ts]; simpl; auto.
Qed.

Lemma set_task_same (i : nat) (t : start_task) : forall ts t0,
  nth_error ts i = Some t0 -> nth_error (set_task i t ts) i = Some t.
Proof.
  induction i as [|i IH]; intros [|t1 ts] t0 H; simpl in *; try discriminate; eauto.
Qed.

Lemma set_task_other (i : nat) (t : start_task) : forall ts j,
  j <> i -> nth_error (set_task i t ts) j = nth_error ts j.
Proof.
  induction i as [|i IH]; intros [|t0 ts] [|j] H; simpl; auto; try contradiction;
    try (apply IH; lia).
Qed.

Lemma all_finished_nth (ts : list start_task) (i : nat) (t : start_task) :
  all_finished ts = true -> nth_error ts i = Some t -> t = Finished.
Proof.
  intros Hall Hn. unfold all_finished in Hall.
  rewrite forallb_forall in Hall.
  specialize (Hall t (nth_error_In _ _ Hn)).
  destruct t; [discriminate | discriminate | reflexivity].
Qed.

Section StartInvariant.

Variable capacity : nat.
Variable directives : list Directive.

Lemma start_inv_init : start_inv capacity directives (Start capacity directives).
Proof.
  constructor; simpl.
  - intros i d H _. rewrite nth_error_map, H. reflexivity.
  - intros i [].
  - intros i [].
  - apply length_map.
  - exists []. split; reflexivity.
  - constructor.
  - reflexivity.
  - lia.
  - intros H. contradiction.
  - discriminate.
Qed.

Lemma sendq_completed (s : started) (i : nat) :
  start_inv capacity directives s -> In i (sendq s) -> In i (completed s).
Proof.
  intros Hinv Hin. destruct (si_order _ _ _ Hinv) as [handed [Hc _]].
  rewrite Hc. apply in_or_app. auto.
Qed.

Lemma completed_bound (s : started) (i : nat) :
  start_inv capacity directives s -> In i (completed s) -> i < length directives.
Proof.
  intros Hinv Hin.
  rewrite <- (si_length _ _ _ Hinv). apply nth_error_Some.
  destruct (in_dec Nat.eq_dec i (sendq s)) as [Hq|Hq].
  - rewrite (si_parked _ _ _ Hinv i Hq). discriminate.
  - rewrite (si_finished _ _ _ Hinv i Hin Hq). discriminate.
Qed.

Lemma running_not_completed (s : started) (i : nat) (d : Directive) :
  start_inv capacity directives s ->
  nth_error (tasks s) i = Some (Running d) ->
  ~ In i (completed s) /\ nth_error directives i = Some d.
Proof.
  intros Hinv Hn.
  assert (Hnot : ~ In i (completed s)).
  { intros Hin. destruct (in_dec Nat.eq_dec i (sendq s)) as [Hq|Hq].
    - rewrite (si_parked _ _ _ Hinv i Hq) in Hn. discriminate.
    - rewrite (si_finished _ _ _ Hinv i Hin Hq) in Hn. discriminate. }
  split; [exact Hnot|].
  destruct (nth_error directives i) as [d'|] eqn:E.
  - pose proof (si_running _ _ _ Hinv i d' E Hnot) as H. congruence.
  - apply nth_error_None in E. rewrite <- (si_length _ _ _ Hinv) in E.
    apply nth_error_None in E. congruence.
Qed.

Lemma first_parked_cons (s : started) (j : nat) (q : list nat) :
  start_inv capacity directives s ->
  sendq s = j :: q ->
  first_parked s = Some (j, result_of directives j, q).
Proof.
  intros Hinv Hq. unfold first_parked. rewrite Hq.
  rewrite (si_parked _ _ _ Hinv j) by (rewrite Hq; simpl; auto).
  reflexivity.
Qed.

Lemma start_inv_finish (s : started) (i : nat) :
  start_inv capacity directives s ->
  start_inv capacity directives (start_step (Finish i) s).
Proof.
  intros Hinv. simpl.
  destruct (nth_error (tasks s) i) as [[d| |]|] eqn:Hn; try exact Hinv.
  destruct (running_not_completed _ _ _ Hinv Hn) as [Hnot Hd].
  destruct (si_order _ _ _ Hinv) as [handed [Hc Hp]].
  assert (Hres : result_of directives i = d tt) by (unfold result_of; now rewrite Hd).
  assert (Hclosed : closed (es s) = true -> False).
  { intros Hcl. apply (si_closed _ _ _ Hinv) in Hcl.
    pose proof (all_finished_nth _ _ _ Hcl Hn). discriminate. }
  destruct (length (buf (es s)) <? cap (es s)) eqn:Hlt.
  - (* room in the stream *)
    apply Nat.ltb_lt in Hlt. rewrite (si_cap _ _ _ Hinv) in Hlt.
    assert (Hq : sendq s = []).
    { destruct (sendq s) as [|j q] eqn:E; [reflexivity|].
      assert (Hfull : length (buf (es s)) = capacity)
        by (apply (si_full _ _ _ Hinv); rewrite E; discriminate).
      lia. }
    constructor; simpl.
    + intros j dj Hj Hnj.
      rewrite set_task_other by (intros ->; apply Hnj, in_or_app; simpl; auto).
      apply (si_running _ _ _ Hinv j dj Hj).
      intros Hin. apply Hnj, in_or_app. auto.
    + rewrite Hq. intros j [].
    + intros j Hin _. apply in_app_or in Hin. destruct Hin as [Hin|[<-|[]]].
      * rewrite set_task_other by (intros ->; contradiction).
        apply (si_finished _ _ _ Hinv j Hin). rewrite Hq. intros [].
      * apply (set_task_same _ _ _ _ Hn).
    + rewrite set_task_length. apply (si_length _ _ _ Hinv).
    + exists (handed ++ [i]). rewrite Hq, app_nil_r in *. split.
      * now rewrite Hc.
      * rewrite app_assoc, Hp, map_app. simpl. now rewrite Hres.
    + apply NoDup_app; [apply (si_nodup _ _ _ Hinv) | repeat constructor; intros [] |].
      intros x Hx [<-|[]]. contradiction.
    + apply (si_cap _ _ _ Hinv).
    + rewrite length_app. simpl. lia.
    + rewrite Hq. intros H. contradiction.
    + intros Hcl. destruct (Hclosed Hcl).
  - (* the stream is full: the task waits in line *)
    apply Nat.ltb_ge in Hlt. rewrite (si_cap _ _ _ Hinv) in Hlt.
    pose proof (si_room _ _ _ Hinv) as Hroom.
    constructor; simpl.
    + intros j dj Hj Hnj.
      rewrite set_task_other by (intros ->; apply Hnj, in_or_app; simpl; auto).
      apply (si_running _ _ _ Hinv j dj Hj).
      intros Hin. apply Hnj, in_or_app. auto.
    + intros j Hin. apply in_app_or in Hin. destruct Hin as [Hin|[<-|[]]].
      * rewrite set_task_other
          by (intros ->; apply Hnot, (sendq_completed _ _ Hinv Hin)).
        apply (si_parked _ _ _ Hinv j Hin).
      * rewrite Hres. apply (set_task_same _ _ _ _ Hn).
    + intros j Hin Hnq. apply in_app_or in Hin. destruct Hin as [Hin|[<-|[]]].
      * rewrite set_task_other by (intros ->; contradiction).
        apply (si_finished _ _ _ Hinv j Hin).
        intros Hq. apply Hnq, in_or_app. auto.
      * exfalso. apply Hnq, in_or_app. simpl. auto.
    + rewrite set_task_length. apply (si_length _ _ _ Hinv).
    + exists handed. split; [|exact Hp]. now rewrite Hc, app_assoc.
    + apply NoDup_app; [apply (si_nodup _ _ _ Hinv) | repeat constructor; intros [] |].
      intros x Hx [<-|[]]. contradiction.
    + apply (si_cap _ _ _ Hinv).
    + exact Hroom.
    + intros _. lia.
    + intros Hcl. destruct (Hclosed Hcl).
Qed.

Lemma start_inv_receive (s : started) :
  start_inv capacity directives s ->
  start_inv capacity directives (start_step Receive s).
Proof.
  intros Hinv. simpl.
  destruct (si_order _ _ _ Hinv) as [handed [Hc Hp]].
  pose proof (si_room _ _ _ Hinv) as Hroom.
  destruct (sendq s) as [|j q] eqn:Hq.
  - (* nobody waits in line *)
    assert (Hfp : first_parked s = None) by (unfold first_parked; now rewrite Hq).
    rewrite Hfp.
    destruct (buf (es s)) as [|e b] eqn:Hb; [exact Hinv|].
    constructor; simpl.
    + apply (si_running _ _ _ Hinv).
    + intros i [].
    + intros i Hin _. apply (si_finished _ _ _ Hinv i Hin). rewrite Hq. intros [].
    + apply (si_length _ _ _ Hinv).
    + exists handed. split; [exact Hc|].
      rewrite <- app_assoc. exact Hp.
    + apply (si_nodup _ _ _ Hinv).
    + apply (si_cap _ _ _ Hinv).
    + simpl in Hroom. lia.
    + intros H. contradiction.
    + apply (si_closed _ _ _ Hinv).
  - (* the first task in line hands over its emitter *)
    rewrite (first_parked_cons _ _ _ Hinv Hq).
    assert (Hj : nth_error (tasks s) j = Some (Parked (result_of directives j)))
      by (apply (si_parked _ _ _ Hinv); rewrite Hq; simpl; auto).
    pose proof (si_nodup _ _ _ Hinv) as Hnd. rewrite Hc in Hnd.
    assert (Hjq : ~ In j q).
    { apply NoDup_app_remove_l in Hnd. now inversion Hnd. }
    assert (Hjc : In j (completed s))
      by (apply (sendq_completed _ _ Hinv); rewrite Hq; simpl; auto).
    assert (Hfull : length (buf (es s)) = capacity)
      by (apply (si_full _ _ _ Hinv); rewrite Hq; discriminate).
    assert (Hclosed : closed (es s) = true -> False).
    { intros Hcl. apply (si_closed _ _ _ Hinv) in Hcl.
      pose proof (all_finished_nth _ _ _ Hcl Hj). discriminate. }
    assert (Hrun : forall i d, nth_error directives i = Some d -> ~ In i (completed s) ->
                   nth_error (set_task j Finished (tasks s)) i = Some (Running d)).
    { intros i d Hi Hni. rewrite set_task_other by (intros ->; contradiction).
      apply (si_running _ _ _ Hinv i d Hi Hni). }
    assert (Hpark : forall i, In i q ->
                    nth_error (set_task j Finished (tasks s)) i
                    = Some (Parked (result_of directives i))).
    { intros i Hi. rewrite set_task_other by (intros ->; contradiction).
      apply (si_parked _ _ _ Hinv). rewrite Hq. simpl. auto. }
    assert (Hfin : forall i, In i (completed s) -> ~ In i q ->
                   nth_error (set_task j Finished (tasks s)) i = Some Finished).
    { intros i Hi Hni. destruct (Nat.eq_dec i j) as [->|Hne].
      - apply (set_task_same _ _ _ _ Hj).
      - rewrite set_task_other by exact Hne.
        apply (si_finished _ _ _ Hinv i Hi). rewrite Hq. intros [E|E]; [congruence|contradiction]. }
    assert (Hord : completed s = (handed ++ [j]) ++ q)
      by (rewrite Hc, <- app_assoc; reflexivity).
    destruct (buf (es s)) as [|e b] eqn:Hb.
    + constructor; simpl.
      * exact Hrun.
      * exact Hpark.
      * exact Hfin.
      * rewrite set_task_length. apply (si_length _ _ _ Hinv).
      * exists (handed ++ [j]). split; [exact Hord|].
        rewrite app_nil_r in Hp. rewrite Hb, app_nil_r, Hp, map_app. reflexivity.
      * apply (si_nodup _ _ _ Hinv).
      * apply (si_cap _ _ _ Hinv).
      * rewrite Hb. exact Hroom.
      * intros _. rewrite Hb. exact Hfull.
      * intros Hcl. destruct (Hclosed Hcl).
    + constructor; simpl.
      * exact Hrun.
      * exact Hpark.
      * exact Hfin.
      * rewrite set_task_length. apply (si_length _ _ _ Hinv).
      * exists (handed ++ [j]). split; [exact Hord|].
        rewrite map_app, <- Hp, <- !app_assoc. reflexivity.
      * apply (si_nodup _ _ _ Hinv).
      * apply (si_cap _ _ _ Hinv).
      * rewrite length_app. simpl in *. lia.
      * intros _. rewrite length_app. simpl in *. lia.
      * intros Hcl. destruct (Hclosed Hcl).
Qed.

Lemma start_step_inv (t : start_turn) (s : started) :
  start_inv capacity directives s -> start_inv capacity directives (start_step t s).
Proof.
  intros Hinv. destruct t as [i| |].
  - apply start_inv_finish, Hinv.
  - apply start_inv_receive, Hinv.
  - simpl. destruct (all_finished (tasks s) && negb (closed (es s))) eqn:G; [|exact Hinv].
    apply andb_prop in G. destruct G as [G _].
    destruct Hinv. constructor; simpl; auto.
Qed.

Lemma start_run_inv (sched : list start_turn) : forall s,
  start_inv capacity directives s -> start_inv capacity directives (start_run sched s).
Proof.
  induction sched as [|t sched IH]; intros s Hinv; [exact Hinv|].
  simpl. apply IH, start_step_inv, Hinv.
Qed.

End StartInvariant.

Section StartRuns.

Variable capacity : nat.
Variable directives : list Directive.

(** Tasks that have not completed can complete in any order. *)
Lemma start_run_finishes (order : list nat) : forall s,
  start_inv capacity directives s ->
  NoDup (completed s ++ order) ->
  (forall i, In i order -> i < length directives) ->
  completed (start_run (map Finish order) s) = completed s ++ order
  /\ pulled (start_run (map Finish order) s) = pulled s
  /\ closed (es (start_run (map Finish order) s)) = closed (es s).
Proof.
  induction order as [|i order IH]; intros s Hinv Hnd Hb.
  - simpl. now rewrite app_nil_r.
  - assert (Hi : i < length directives) by (apply Hb; simpl; auto).
    assert (Hnot : ~ In i (completed s)).
    { intros Hin. apply NoDup_remove_2 in Hnd. apply Hnd, in_or_app. auto. }
    destruct (nth_error directives i) as [d|] eqn:Hd;
      [|apply nth_error_None in Hd; lia].
    pose proof (si_running _ _ _ Hinv i d Hd Hnot) as Hn.
    pose proof (start_step_inv capacity directives (Finish i) s Hinv) as Hinv'.
    assert (Hstep : completed (start_step (Finish i) s) = completed s ++ [i]
                    /\ pulled (start_step (Finish i) s) = pulled s
                    /\ closed (es (start_step (Finish i) s)) = closed (es s)).
    { simpl. rewrite Hn.
      destruct (length (buf (es s)) <? cap (es s)); simpl; auto. }
    destruct Hstep as [H1 [H2 H3]].
    change (start_run (map Finish (i :: order)) s)
      with (start_run (map Finish order) (start_step (Finish i) s)).
    destruct (IH _ Hinv') as [Hc [Hp Hcl]].
    + rewrite H1, <- app_assoc. exact Hnd.
    + intros j Hj. apply Hb. simpl. auto.
    + rewrite Hc, Hp, Hcl, H1, H2, H3, <- app_assoc. auto.
Qed.

(** While something has completed and not been pulled, a pull gets it. *)
Lemma start_run_receives (k : nat) : forall s,
  start_inv capacity directives s ->
  length (pulled s) + k <= length (completed s) ->
  length (pulled (start_run (repeat Receive k) s)) = length (pulled s) + k
  /\ completed (start_run (repeat Receive k) s) = completed s
  /\ closed (es (start_run (repeat Receive k) s)) = closed (es s).
Proof.
  induction k as [|k IH]; intros s Hinv Hle.
  - simpl. auto.
  - pose proof (start_step_inv capacity directives Receive s Hinv) as Hinv'.
    assert (Hstep : length (pulled (start_step Receive s)) = S (length (pulled s))
                    /\ completed (start_step Receive s) = completed s
                    /\ closed (es (start_step Receive s)) = closed (es s)).
    { destruct (si_order _ _ _ Hinv) as [handed [Hc Hp]].
      apply (f_equal (@length _)) in Hc, Hp.
      rewrite length_app in Hc, Hp. rewrite length_map in Hp.
      simpl.
      destruct (sendq s) as [|j q] eqn:Hq.
      - assert (Hfp : first_parked s = None) by (unfold first_parked; now rewrite Hq).
        rewrite Hfp.
        destruct (buf (es s)) as [|e b]; simpl in *; [lia|].
        rewrite length_app. simpl. split; [lia | auto].
      - rewrite (first_parked_cons _ _ _ _ _ Hinv Hq).
        destruct (buf (es s)) as [|e b]; simpl;
          rewrite length_app; simpl; (split; [lia | auto]). }
    destruct Hstep as [H1 [H2 H3]].
    change (start_run (repeat Receive (S k)) s)
      with (start_run (repeat Receive k) (start_step Receive s)).
    destruct (IH _ Hinv') as [Hp [Hc Hcl]]; [rewrite H1, H2; lia|].
    rewrite Hp, Hc, Hcl, H1, H2, H3. split; [lia | auto].
Qed.

End StartRuns.

(** C7: for every list of directives, every buffer size and every
    schedule of the tasks, the consumer and the closing task: the
    emitters pulled from the stream of [Start], then those in the stream,
    then those waiting to enter it are, in the order in which the
    directives completed, the one emitter that each completed directive
    returned; no directive contributes twice; the stream is closed only
    when all the directives have completed and handed over their emitter,
    each exactly once.  Every order of completion is possible, whatever
    the order of the arguments: the consumer then pulls the emitters in
    that order, and the closing task closes the stream after them. *)
Theorem Start_spec (capacity : nat) (directives : list Directive) :
  (forall sched,
      let s := start_run sched (Start capacity directives) in
      pulled s ++ buf (es s) ++ map (result_of directives) (sendq s)
      = map (result_of directives) (completed s)
      /\ NoDup (completed s)
      /\ (forall i, In i (completed s) -> i < length directives)
      /\ length (buf (es s)) <= capacity
      /\ (closed (es s) = true ->
          Permutation (completed s) (seq 0 (length directives)) /\ sendq s = []))
  /\ (forall order,
      Permutation order (seq 0 (length directives)) ->
      let s := start_run (map Finish order ++ repeat Receive (length directives))
                         (Start capacity directives) in
      completed s = order
      /\ pulled s = map (result_of directives) order
      /\ closed (es s) = false
      /\ closed (es (start_step Closer s)) = true
      /\ pulled (start_step Closer s) = map (result_of directives) order).
Proof.
  split.
  - intros sched s.
    pose proof (start_run_inv capacity directives sched _
                  (start_inv_init capacity directives)) as Hinv.
    fold s in Hinv.
    assert (Hb : forall i, In i (completed s) -> i < length directives)
      by (intros i; apply (completed_bound capacity directives); exact Hinv).
    split; [|split; [apply (si_nodup _ _ _ Hinv)|split; [exact Hb|split]]].
    + destruct (si_order _ _ _ Hinv) as [handed [Hc Hp]].
      rewrite Hc, map_app, <- Hp, <- app_assoc. reflexivity.
    + apply (si_room _ _ _ Hinv).
    + intros Hc. apply (si_closed _ _ _ Hinv) in Hc.
      assert (Hq : sendq s = []).
      { destruct (sendq s) as [|j q] eqn:E; [reflexivity|].
        assert (Hj : nth_error (tasks s) j = Some (Parked (result_of directives j)))
          by (apply (si_parked _ _ _ Hinv); rewrite E; simpl; auto).
        pose proof (all_finished_nth _ _ _ Hc Hj). discriminate. }
      split; [|exact Hq].
      apply NoDup_Permutation; [apply (si_nodup _ _ _ Hinv) | apply seq_NoDup |].
      intros i. rewrite in_seq. split; [intros Hi; specialize (Hb i Hi); lia|].
      intros [_ Hi]. simpl in Hi.
      destruct (in_dec Nat.eq_dec i (completed s)) as [Hin|Hnot]; [exact Hin|].
      destruct (nth_error directives i) as [d|] eqn:Hd;
        [|apply nth_error_None in Hd; lia].
      pose proof (si_running _ _ _ Hinv i d Hd Hnot) as Hn.
      pose proof (all_finished_nth _ _ _ Hc Hn). discriminate.
  - intros order Hperm s.
    pose proof (start_inv_init capacity directives) as Hinv0.
    assert (Hlen : length order = length directives).
    { rewrite (Permutation_length Hperm). apply length_seq. }
    destruct (start_run_finishes capacity directives order _ Hinv0) as [Hc1 [Hp1 Hcl1]].
    { simpl. apply (Permutation_NoDup (Permutation_sym Hperm)), seq_NoDup. }
    { intros i Hi. apply (Permutation_in _ Hperm), in_seq in Hi. lia. }
    simpl in Hc1, Hp1, Hcl1.
    pose proof (start_run_inv capacity directives (map Finish order) _ Hinv0) as Hinv1.
    destruct (start_run_receives capacity directives (length directives) _ Hinv1)
      as [Hp2 [Hc2 Hcl2]].
    { rewrite Hp1, Hc1. simpl. lia. }
    pose proof (start_run_inv capacity directives (repeat Receive (length directives))
                  _ Hinv1) as Hinv.
    unfold start_run in *. rewrite <- fold_left_app in *. fold s in Hp2, Hc2, Hcl2, Hinv.
    rewrite Hp1 in Hp2. rewrite Hc1 in Hc2. rewrite Hcl1 in Hcl2. simpl in Hp2.
    destruct (si_order _ _ _ Hinv) as [handed [Hc Hp]].
    assert (Hsizes : length (buf (es s)) = 0 /\ length (sendq s) = 0).
    { pose proof (f_equal (@length _) Hc) as L1.
      pose proof (f_equal (@length _) Hp) as L2.
      rewrite length_app in L1, L2. rewrite length_map in L2.
      rewrite Hc2 in L1. lia. }
    destruct Hsizes as [Lb Lq].
    apply length_zero_iff_nil in Lb, Lq.
    rewrite Lq, app_nil_r in Hc. rewrite Lb, app_nil_r in Hp.
    assert (Hpulled : pulled s = map (result_of directives) order)
      by (rewrite Hp, <- Hc, Hc2; reflexivity).
    assert (Hall : all_finished (tasks s) = true).
    { unfold all_finished. apply forallb_forall. intros t Ht.
      destruct (In_nth_error _ _ Ht) as [i Hi].
      assert (Hlt : i < length directives).
      { rewrite <- (si_length _ _ _ Hinv). apply nth_error_Some. congruence. }
      assert (Hin : In i (completed s)).
      { rewrite Hc2. apply (Permutation_in _ (Permutation_sym Hperm)), in_seq. lia. }
      rewrite (si_finished _ _ _ Hinv i Hin) in Hi by (rewrite Lq; intros []).
      injection Hi as <-. reflexivity. }
    split; [exact Hc2|]. split; [exact Hpulled|]. split; [exact Hcl2|].
    simpl. rewrite Hall, Hcl2. simpl. auto.
Qed.

Lemma Start_spec_witness :
  let s := start_run (map Finish [1; 0; 2; 3] ++ repeat Receive 4)
                     (Start 0 [observable_test.d1; observable_test.d2;
                               observable_test.d3; observable_test.d4]) in
  Permutation [1; 0; 2; 3] (seq 0 4)
  /\ pulled s = [observable_test.d2 tt; observable_test.d1 tt;
                 observable_test.d3 tt; observable_test.d4 tt]
  /\ closed (es (start_step Closer s)) = true.
Proof.
  intros s.
  assert (Hperm : Permutation [1; 0; 2; 3] (seq 0 4)) by (simpl; apply perm_swap).
  split; [exact Hperm|].
  destruct (proj2 (Start_spec 0 [observable_test.d1; observable_test.d2;
                                 observable_test.d3; observable_test.d4])
                  [1; 0; 2; 3] Hperm) as [_ [Hp [_ [Hc _]]]].
  split; [exact Hp | exact Hc].
Defined.

(** * Further properties of package [eventstream] *)

(** ** [Next] on any stream *)

Lemma drained_stays (sched : list turn) : forall s o,
  closed (ch s) = true -> buf (ch s) = [] ->
  got (fst (interleave sched s o)) = got o ++ repeat eos (pull_turns sched)
  /\ sends (sent (fst (interleave sched s o))) = sends (sent o)
  /\ closed (ch (snd (interleave sched s o))) = true
  /\ buf (ch (snd (interleave sched s o))) = [].
Proof.
  induction sched as [|t sched IH]; intros s o Hcl Hb.
  - simpl. rewrite app_nil_r. auto.
  - assert (Hstep : exists o' s',
               turn_step t s o = (o', s')
               /\ closed (ch s') = true /\ buf (ch s') = []
               /\ sends (sent o') = sends (sent o)
               /\ got o' = got o ++ repeat eos (pull_turns [t])).
    { destruct t; simpl.
      - (* the producer can print or return, but not send or close *)
        unfold prod_step.
        destruct (producer s) as [g|];
          [|exists o, s; rewrite app_nil_r; auto].
        destruct (code g (at_pc g)) as [e err k|e k|k|]; rewrite ?Hcl.
        + eexists; eexists; (split; [reflexivity|]); simpl.
          rewrite sends_app, !app_nil_r. auto.
        + exists o, s. rewrite app_nil_r. auto.
        + exists o, s. rewrite app_nil_r. auto.
        + eexists; eexists; (split; [reflexivity|]); simpl.
          rewrite sends_app, !app_nil_r. auto.
      - unfold Next, recv, handoff. rewrite Hb, Hcl.
        eexists; eexists; (split; [reflexivity|]); simpl.
        rewrite app_nil_r. auto. }
    destruct Hstep as [o' [s' [E [Hcl' [Hb' [Hs Hg]]]]]].
    simpl. rewrite E.
    destruct (IH s' o' Hcl' Hb') as [H1 [H2 H3]].
    split; [|split; [congruence | exact H3]].
    rewrite H1, Hg, <- app_assoc, <- repeat_app.
    destruct t; reflexivity.
Qed.

Lemma Next_error_drained (evs evs' : EventStream) (emitter : Emitter) (err : error) :
  Next evs = Some ((emitter, Some err), evs') ->
  evs' = evs /\ buf (ch evs) = [] /\ closed (ch evs) = true.
Proof.
  unfold Next, recv. next_cases evs; intros H; try discriminate.
  injection H as _ _ <-. auto.
Qed.

(** X1: the end of a stream is permanent.  Once [Next] has returned the
    end-of-stream error the stream is left as it was, and however the
    producer and the consumer are scheduled from then on, every later
    call of [Next] returns end-of-stream at once and nothing more is ever
    sent. *)
Theorem end_of_stream_is_permanent
  (evs evs' : EventStream) (emitter : Emitter) (err : error) (sched : list turn) (o : observed)
  (Hend : Next evs = Some ((emitter, Some err), evs')) :
  evs' = evs
  /\ got (fst (interleave sched evs' o)) = got o ++ repeat eos (pull_turns sched)
  /\ sends (sent (fst (interleave sched evs' o))) = sends (sent o)
  /\ Next (snd (interleave sched evs' o))
     = Some (eos, snd (interleave sched evs' o)).
Proof.
  destruct (Next_error_drained _ _ _ _ Hend) as [-> [Hb Hcl]].
  destruct (drained_stays sched evs o Hcl Hb) as [H1 [H2 [H3 H4]]].
  split; [reflexivity|]. split; [exact H1|]. split; [exact H2|].
  unfold Next, recv. rewrite H4, H3. reflexivity.
Qed.

Lemma end_of_stream_is_permanent_witness :
  let evs := snd (run_producer 1 (From (slice_iterator []))) in
  let drained := snd (interleave [Tick; Pull] evs start) in
  Next drained = Some (eos, drained)
  /\ got (fst (interleave [Pull; Tick; Pull; Pull] drained start)) = [eos; eos; eos]
  /\ sends (sent (fst (interleave [Pull; Tick; Pull; Pull] drained start))) = [].
Proof.
  intros evs drained.
  assert (Hend : Next drained = Some (eos, drained)) by reflexivity.
  split; [exact Hend|].
  destruct (end_of_stream_is_permanent drained drained None
              (NewError EndOfIteratorError) [Pull; Tick; Pull; Pull] start Hend)
    as [_ [Hg [Hs _]]].
  split; [exact Hg | exact Hs].
Defined.

Lemma delivered_then_buffered (c : nat) (g : goroutine) (sched : list turn) :
  let o := fst (interleave sched {| ch := make c; producer := Some g |} start) in
  let s := snd (interleave sched {| ch := make c; producer := Some g |} start) in
  delivered (got o) ++ buf (ch s) = sends (sent o)
  /\ length (buf (ch s)) <= c
  /\ exists i, got o = map okr (delivered (got o)) ++ repeat eos i
               /\ (0 < i -> closed (ch s) = true /\ buf (ch s) = []).
Proof.
  intros o s.
  pose proof (fifo_inv_interleave c g sched _ _ (fifo_inv_start c g)) as Hinv.
  fold o s in Hinv.
  destruct Hinv as [_ _ [j [i [Hgot [Hbuf [Hj Hi]]]]] _ Hroom].
  assert (Hd : delivered (got o) = firstn j (sends (sent o))).
  { rewrite Hgot, delivered_app, delivered_okr, delivered_eos. apply app_nil_r. }
  split; [|split; [exact Hroom|]].
  - rewrite Hd, Hbuf. apply firstn_skipn.
  - exists i. rewrite Hd. auto.
Qed.

(** X2: [Next] never loses, duplicates or reorders.  For any producer
    goroutine and any buffer size, at every point of every interleaving
    the emitters that [Next] has returned, followed by those still in the
    buffer, are exactly the emitters the producer has sent, in the order
    it sent them; the buffer never holds more than its capacity; and what
    [Next] has returned is a run of emitters with nil error followed only
    by end-of-stream results. *)
Theorem Next_delivers_in_order (c : nat) (g : goroutine) (sched : list turn) :
  let o := fst (interleave sched {| ch := make c; producer := Some g |} start) in
  let s := snd (interleave sched {| ch := make c; producer := Some g |} start) in
  delivered (got o) ++ buf (ch s) = sends (sent o)
  /\ length (buf (ch s)) <= c
  /\ exists i, got o = map okr (delivered (got o)) ++ repeat eos i
               /\ (0 < i -> closed (ch s) = true /\ buf (ch s) = []).
Proof.
  exact (delivered_then_buffered c g sched).
Qed.

(** ** The goroutine of [New] *)

Lemma new_state_start (emitters : list Emitter) :
  emitters <> [] ->
  new_state (length emitters) (length emitters + 2) (New emitters).
Proof.
  intros H. rewrite (New_nonempty _ H).
  apply (NS_loop (length emitters) [] emitters). simpl. lia.
Qed.

(** A producer turn is a step of the goroutine as long as it exists. *)
Lemma new_state_tick (c m : nat) (s : EventStream) :
  new_state c m s ->
  (m = 0 /\ producer s = None /\ prod_step s = Blocked)
  \/ exists l s', prod_step s = Stepped l s' /\ new_state c (m - 1) s'.
Proof.
  intros [b [|e rest] Hle | b Hle | b Hle].
  - right. eexists; eexists. split; [reflexivity|]. simpl.
    apply NS_done. simpl in *. lia.
  - right. unfold prod_step. simpl in *.
    assert (Hlt : (length b <? c) = true) by (apply Nat.ltb_lt; lia).
    rewrite Hlt. eexists; eexists. split; [reflexivity|].
    cbn. rewrite Nat.sub_0_r.
    apply (NS_loop c (b ++ [e]) rest). rewrite length_app. simpl in *. lia.
  - right. eexists; eexists. split; [reflexivity|]. simpl.
    apply NS_gone. simpl in *. lia.
  - left. auto.
Qed.

(** A consumer turn never sets the goroutine back. *)
Lemma new_state_pull (c m : nat) (s : EventStream) (o : observed) :
  new_state c m s ->
  exists m', m' <= m /\ new_state c m' (snd (turn_step Pull s o)).
Proof.
  intros [[|e0 b] [|e rest] Hle | [|e0 b] Hle | [|e0 b] Hle]; simpl in *.
  - exists 2. split; [lia|]. apply (NS_loop c [] []). simpl. lia.
  - exists (length rest + 2). split; [lia|]. apply (NS_loop c [] rest). simpl. lia.
  - exists 2. split; [lia|]. apply (NS_loop c b []). simpl. lia.
  - exists (S (length rest + 2)). split; [lia|].
    apply (NS_loop c b (e :: rest)). simpl. lia.
  - exists 1. split; [lia|]. apply NS_done. simpl in *. lia.
  - exists 1. split; [lia|]. apply NS_done. simpl in *. lia.
  - exists 0. split; [lia|]. apply NS_gone. simpl in *. lia.
  - exists 0. split; [lia|]. apply NS_gone. simpl in *. lia.
Qed.

Lemma new_state_interleave (c : nat) (sched : list turn) : forall m s o,
  new_state c m s ->
  exists m', m' <= m - ticks sched /\ new_state c m' (snd (interleave sched s o)).
Proof.
  induction sched as [|t sched IH]; intros m s o Hst.
  - exists m. split; [simpl; lia | exact Hst].
  - simpl. destruct t.
    + destruct (new_state_tick c m s Hst) as [[-> [Hp Hbl]]|[l [s' [E Hst']]]].
      * unfold turn_step. rewrite Hbl.
        destruct (IH 0 s o Hst) as [m' [Hm' H]]. exists m'. split; [lia | exact H].
      * unfold turn_step. rewrite E.
        destruct (IH _ s' {| sent := sent o ++ [l]; got := got o |} Hst')
          as [m' [Hm' H]].
        exists m'. split; [simpl; lia | exact H].
    + destruct (new_state_pull c m s o Hst) as [m1 [Hm1 Hst']].
      destruct (turn_step Pull s o) as [o' s'] eqn:E. simpl in Hst'.
      destruct (IH m1 s' o' Hst') as [m' [Hm' H]].
      exists m'. split; [simpl; lia | exact H].
Qed.

Lemma New_empty_interleave (sched : list turn) (o : observed) :
  interleave sched (New []) o = (o, New []).
Proof.
  induction sched as [|[|] sched IH]; [reflexivity | exact IH | exact IH].
Qed.

(** X3: the goroutine of [New] is never held up.  At every point of every
    interleaving, if the goroutine still exists then its next step can be
    taken at once: it never waits for a consumer, and it never panics by
    sending on, or closing, a closed channel. *)
Theorem New_producer_never_waits (emitters : list Emitter) (sched : list turn) :
  let s := snd (interleave sched (New emitters) start) in
  producer s = None \/ exists l s', prod_step s = Stepped l s'.
Proof.
  intros s. destruct emitters as [|e l].
  - left. subst s. rewrite New_empty_interleave. reflexivity.
  - assert (Hne : e :: l <> []) by discriminate.
    destruct (new_state_interleave _ sched _ _ start (new_state_start _ Hne))
      as [m' [_ Hst]].
    fold s in Hst.
    destruct (new_state_tick _ _ _ Hst) as [[_ [Hp _]]|[lb [s' [E _]]]].
    + left. exact Hp.
    + right. exists lb, s'. exact E.
Qed.

(** X4: the goroutine of [New] always finishes.  For [n] arguments, [n >
    0], once the producer has had [n + 2] turns, in any interleaving with
    the consumer, it has returned and the stream is closed; the emitters
    pulled so far followed by those left in the buffer are exactly the
    arguments, in order. *)
Theorem New_producer_finishes (emitters : list Emitter) (sched : list turn)
  (Hne : emitters <> [])
  (Hturns : length emitters + 2 <= ticks sched) :
  let o := fst (interleave sched (New emitters) start) in
  let s := snd (interleave sched (New emitters) start) in
  producer s = None
  /\ closed (ch s) = true
  /\ delivered (got o) ++ buf (ch s) = emitters.
Proof.
  intros o s.
  destruct (new_state_interleave _ sched _ _ start (new_state_start _ Hne))
    as [m' [Hm' Hst]].
  fold s in Hst.
  assert (Hm0 : m' = 0) by lia. subst m'.
  assert (Hgone : producer s = None /\ closed (ch s) = true).
  { inversion Hst; subst; simpl; auto; lia. }
  destruct Hgone as [Hp Hcl].
  split; [exact Hp|]. split; [exact Hcl|].
  pose proof (fifo_inv_interleave _ _ sched _ _
                (fifo_inv_start (length emitters)
                   (Go new_pc (NewLoop emitters) new_code))) as Hinv.
  pose proof (delivered_then_buffered (length emitters)
                (Go new_pc (NewLoop emitters) new_code) sched) as Hd.
  rewrite <- (New_nonempty _ Hne) in Hinv, Hd. fold o s in Hinv, Hd.
  destruct Hd as [Hd _]. rewrite Hd.
  destruct Hinv as [_ [n [Hsent _]] _ Hclosed _].
  apply Hclosed in Hcl. rewrite Hsent in *.
  exact (proj2 (feeds_trace _ _ (new_feeds emitters) n) Hcl).
Qed.

(** ** The goroutine of [From] *)

Lemma prints_app (l1 l2 : list label) : prints (l1 ++ l2) = prints l1 ++ prints l2.
Proof.
  induction l1 as [|[ | | | ] l1 IH]; simpl; rewrite ?IH; reflexivity.
Qed.

Lemma pulls_snoc (k : nat) (iter : Iterator) :
  pulls (S k) iter = pulls k iter ++ [fst (Iterator_Next (advance k iter))].
Proof.
  unfold pulls. rewrite seq_S, map_app. reflexivity.
Qed.

Lemma from_run_start (iter : Iterator) : from_run iter (From iter) start.
Proof.
  apply (FR_pull iter _ _ 0); try reflexivity. constructor.
Qed.

Lemma from_run_tick (iter : Iterator) (s : EventStream) (o : observed) :
  from_run iter s o ->
  from_run iter (snd (turn_step Tick s o)) (fst (turn_step Tick s o)).
Proof.
  intros [k Hok Hp Hs -> | k e Hok Hn Hp Hs -> | k e err Hok Hn Hp Hs ->
         | k e err Hok Hn Hp Hs -> | k e err Hok Hn Hp Hs ->].
  - (* the pull and the print *)
    unfold turn_step, prod_step. cbn [producer ch code at_pc from_code].
    destruct (Iterator_Next (advance k iter)) as [[e [err|]] it'] eqn:E; cbn.
    + apply (FR_close iter _ _ k e err); cbn [fst snd sent got]; auto.
      * now rewrite E.
      * now rewrite prints_app, Hp, pulls_snoc, E.
      * now rewrite sends_app, Hs, app_nil_r.
    + apply (FR_send iter _ _ k e); cbn [fst snd sent got].
      * rewrite pulls_snoc, E. apply Forall_app. split; [exact Hok|]. repeat constructor.
      * now rewrite E.
      * now rewrite prints_app, Hp, pulls_snoc, E.
      * now rewrite sends_app, Hs, app_nil_r.
      * change (advance (S k) iter) with (snd (Iterator_Next (advance k iter))).
        rewrite E. reflexivity.
  - (* waiting at the send: nothing moves without a consumer *)
    cbn. apply (FR_send iter _ _ k e); auto.
  - cbn. apply (FR_done iter _ _ k e err); cbn [fst snd sent got]; auto.
    + now rewrite prints_app, Hp, app_nil_r.
    + now rewrite sends_app, Hs, app_nil_r.
  - cbn. apply (FR_gone iter _ _ k e err); cbn [fst snd sent got]; auto.
    + now rewrite prints_app, Hp, app_nil_r.
    + now rewrite sends_app, Hs, app_nil_r.
  - cbn. apply (FR_gone iter _ _ k e err); auto.
Qed.

Lemma from_run_pull (iter : Iterator) (s : EventStream) (o : observed) :
  from_run iter s o ->
  from_run iter (snd (turn_step Pull s o)) (fst (turn_step Pull s o)).
Proof.
  intros [k Hok Hp Hs -> | k e Hok Hn Hp Hs -> | k e err Hok Hn Hp Hs ->
         | k e err Hok Hn Hp Hs -> | k e err Hok Hn Hp Hs ->].
  - (* the goroutine is not at its send yet *)
    unfold turn_step, Next, recv. cbn [producer ch buf closed make code at_pc from_code].
    destruct (Iterator_Next (advance k iter)) as [[e err] it'] eqn:E; cbn.
    apply (FR_pull iter _ _ k); auto.
  - (* the hand-off *)
    cbn. apply (FR_pull iter _ _ (S k)); cbn [fst snd sent got]; auto.
    + now rewrite prints_app, Hp, app_nil_r.
    + rewrite sends_app, Hs, (pulls_snoc k), Hn, map_app. reflexivity.
  - cbn. apply (FR_close iter _ _ k e err); auto.
  - cbn. apply (FR_done iter _ _ k e err); cbn [fst snd sent got]; auto.
    + now rewrite prints_app, Hp, app_nil_r.
    + now rewrite sends_app, Hs, app_nil_r.
  - cbn. apply (FR_gone iter _ _ k e err); cbn [fst snd sent got]; auto.
    + now rewrite prints_app, Hp, app_nil_r.
    + now rewrite sends_app, Hs, app_nil_r.
Qed.

Lemma from_run_interleave (iter : Iterator) (sched : list turn) : forall s o,
  from_run iter s o ->
  from_run iter (snd (interleave sched s o)) (fst (interleave sched s o)).
Proof.
  induction sched as [|t sched IH]; intros s o H; [exact H|].
  simpl. destruct (turn_step t s o) as [o' s'] eqn:E.
  apply IH. destruct t.
  - pose proof (from_run_tick iter s o H) as H'. now rewrite E in H'.
  - pose proof (from_run_pull iter s o H) as H'. now rewrite E in H'.
Qed.

Lemma all_ok_nth (m n : nat) (iter : Iterator) :
  all_ok (pulls m iter) -> n < m -> snd (fst (Iterator_Next (advance n iter))) = None.
Proof.
  intros Hok Hlt. unfold all_ok in Hok. rewrite Forall_forall in Hok.
  apply Hok. unfold pulls.
  apply (in_map (fun k => fst (Iterator_Next (advance k iter)))).
  apply in_seq. lia.
Qed.

Lemma pulls_length (k : nat) (iter : Iterator) : length (pulls k iter) = k.
Proof.
  unfold pulls. now rewrite length_map, length_seq.
Qed.

(** X5: the goroutine of [From] never panics.  For every iterator, at
    every point of every interleaving, its next step is neither a send
    on a closed channel nor a second close; once the stream is closed
    the goroutine has returned or is about to; and the channel itself
    never holds an emitter. *)
Theorem From_producer_never_panics (iter : Iterator) (sched : list turn) :
  let s := snd (interleave sched (From iter) start) in
  prod_step s <> Panicked
  /\ (closed (ch s) = true ->
      producer s = None
      \/ prod_step s = Stepped LExit {| ch := ch s; producer := None |})
  /\ buf (ch s) = [].
Proof.
  intros s.
  pose proof (from_run_interleave iter sched _ _ (from_run_start iter)) as H.
  fold s in H.
  destruct H as [k Hok Hp Hs -> | k e Hok Hn Hp Hs -> | k e err Hok Hn Hp Hs ->
                | k e err Hok Hn Hp Hs -> | k e err Hok Hn Hp Hs ->].
  - unfold prod_step. cbn [producer ch code at_pc from_code].
    destruct (Iterator_Next (advance k iter)) as [[e err] it'].
    split; [discriminate|]. split; [discriminate | reflexivity].
  - split; [discriminate|]. split; [discriminate | reflexivity].
  - split; [discriminate|]. split; [discriminate | reflexivity].
  - split; [discriminate|]. split; [auto | reflexivity].
  - split; [discriminate|]. split; [auto | reflexivity].
Qed.

(** X6: [From] pulls its iterator at most one item ahead of the
    consumer.  At every point of every interleaving the number of pulls
    the goroutine has made is at least the number of emitters that [Next]
    has returned and at most one more. *)
Theorem From_pulls_one_ahead (iter : Iterator) (sched : list turn) :
  let o := fst (interleave sched (From iter) start) in
  length (delivered (got o)) <= length (prints (sent o))
  /\ length (prints (sent o)) <= S (length (delivered (got o))).
Proof.
  intros o.
  pose proof (from_run_interleave iter sched _ _ (from_run_start iter)) as H.
  destruct (unbuffered_handoff _ sched _ _
              (surjective_pairing (interleave sched (From iter) start))) as [_ Hd].
  fold o in H, Hd. rewrite <- Hd.
  destruct H as [k Hok Hp Hs _ | k e Hok Hn Hp Hs _ | k e err Hok Hn Hp Hs _
                | k e err Hok Hn Hp Hs _ | k e err Hok Hn Hp Hs _];
    rewrite Hp, Hs, length_map, !pulls_length; lia.
Qed.

(** X7: what [From] prints is exactly the results of the pulls it has
    made, emitter and error, in pull order; every pull but the last one
    made was successful; and once a pull has failed the iterator is never
    pulled again: if the first failing pull comes after [n] successful
    ones, no more than [n + 1] pulls are ever made. *)
Theorem From_prints_its_pulls (iter : Iterator) (sched : list turn) :
  let o := fst (interleave sched (From iter) start) in
  exists k,
    prints (sent o) = pulls k iter
    /\ all_ok (pulls (pred k) iter)
    /\ (forall n emitter err,
           all_ok (pulls n iter) ->
           fst (Iterator_Next (advance n iter)) = (emitter, Some err) ->
           k <= S n).
Proof.
  intros o.
  pose proof (from_run_interleave iter sched _ _ (from_run_start iter)) as H.
  fold o in H.
  assert (Hk : exists k, prints (sent o) = pulls k iter /\ all_ok (pulls (pred k) iter)).
  { destruct H as [k Hok Hp Hs _ | k e Hok Hn Hp Hs _ | k e err Hok Hn Hp Hs _
                  | k e err Hok Hn Hp Hs _ | k e err Hok Hn Hp Hs _].
    - exists k. split; [exact Hp|].
      destruct k; [constructor|]. simpl.
      rewrite pulls_snoc in Hok. apply Forall_app in Hok. apply Hok.
    - exists (S k). split; [exact Hp|]. simpl.
      rewrite pulls_snoc in Hok. apply Forall_app in Hok. apply Hok.
    - exists (S k). auto.
    - exists (S k). auto.
    - exists (S k). auto. }
  destruct Hk as [k [Hp Hok]]. exists k. split; [exact Hp|]. split; [exact Hok|].
  intros n e err _ Hfail.
  destruct (le_lt_dec k (S n)) as [Hle|Hgt]; [exact Hle|].
  assert (Hn : snd (fst (Iterator_Next (advance n iter))) = None)
    by (apply (all_ok_nth (pred k)); [exact Hok | lia]).
  rewrite Hfail in Hn. discriminate.
Qed.

(** X8: the stream of [From] is closed only because a pull failed.  If
    the stream is closed then some pull of the iterator failed, and the
    emitters sent are exactly those of the successful pulls before it;
    so over an iterator none of whose pulls fails the stream is never
    closed and [Next] never returns end-of-stream. *)
Theorem From_closes_only_on_failure (iter : Iterator) (sched : list turn) :
  let o := fst (interleave sched (From iter) start) in
  let s := snd (interleave sched (From iter) start) in
  (closed (ch s) = true ->
   exists k emitter err,
     all_ok (pulls k iter)
     /\ fst (Iterator_Next (advance k iter)) = (emitter, Some err)
     /\ sends (sent o) = map fst (pulls k iter))
  /\ ((forall k, all_ok (pulls k iter)) ->
      closed (ch s) = false /\ got o = map okr (delivered (got o))).
Proof.
  intros o s.
  pose proof (from_run_interleave iter sched _ _ (from_run_start iter)) as H.
  fold o s in H.
  assert (Hclosed : closed (ch s) = true ->
            exists k emitter err,
              all_ok (pulls k iter)
              /\ fst (Iterator_Next (advance k iter)) = (emitter, Some err)
              /\ sends (sent o) = map fst (pulls k iter)).
  { destruct H as [k Hok Hp Hs -> | k e Hok Hn Hp Hs -> | k e err Hok Hn Hp Hs ->
                  | k e err Hok Hn Hp Hs -> | k e err Hok Hn Hp Hs ->];
      simpl; try discriminate; intros _; exists k, e, err; auto. }
  split; [exact Hclosed|].
  intros Hall.
  assert (Hopen : closed (ch s) = false).
  { destruct (closed (ch s)) eqn:E; [|reflexivity].
    destruct (Hclosed eq_refl) as [k [e [err [_ [Hfail _]]]]].
    pose proof (all_ok_nth (S k) k iter (Hall (S k)) ltac:(lia)) as Hn.
    rewrite Hfail in Hn. discriminate. }
  split; [exact Hopen|].
  destruct (delivered_then_buffered 0 (Go from_pc (FromPull iter) from_code) sched)
    as [_ [_ [i [Hgot Hi]]]].
  change {| ch := make 0; producer := Some (Go from_pc (FromPull iter) from_code) |}
    with (From iter) in Hgot, Hi.
  fold o s in Hgot, Hi.
  destruct i as [|i]; [simpl in Hgot; now rewrite app_nil_r in Hgot|].
  destruct (Hi ltac:(lia)) as [Hc _]. congruence.
Qed.

Lemma New_producer_finishes_witness :
  let emitters := [Some (EmitValue (ItemInt 1)); Some (EmitValue (ItemInt 2))] in
  let sched := [Tick; Pull; Tick; Tick; Tick] in
  (emitters <> [] /\ length emitters + 2 <= ticks sched)
  /\ producer (snd (interleave sched (New emitters) start)) = None
  /\ closed (ch (snd (interleave sched (New emitters) start))) = true
  /\ delivered (got (fst (interleave sched (New emitters) start)))
     ++ buf (ch (snd (interleave sched (New emitters) start))) = emitters.
Proof.
  intros emitters sched.
  assert (Hne : emitters <> []) by discriminate.
  assert (Ht : length emitters + 2 <= ticks sched) by (simpl; lia).
  split; [split; assumption|].
  exact (New_producer_finishes emitters sched Hne Ht).
Defined.

(** ** Blocking calls of [Next] *)

Lemma pull_drained (fuel : nat) (s : EventStream) :
  buf (ch s) = [] -> closed (ch s) = true -> pull fuel s = Returned eos s.
Proof.
  intros Hb Hcl. destruct fuel; simpl; unfold Next, recv; rewrite Hb, Hcl; reflexivity.
Qed.

Lemma pull_buffered (fuel : nat) (s : EventStream) (emitter : Emitter) (b : list Emitter) :
  buf (ch s) = emitter :: b ->
  pull fuel s = Returned (okr emitter) {| ch := with_buf (ch s) b; producer := producer s |}.
Proof.
  intros Hb. destruct fuel; simpl; unfold Next, recv; rewrite Hb; reflexivity.
Qed.

(** X9: a blocking [Next] on the stream of [New] never waits for long,
    never deadlocks and never crashes.  For at least one argument, at
    every point of every interleaving, a call of [Next] returns after at
    most one step of the producer. *)
Theorem Next_on_New_returns_within_one_step
  (emitters : list Emitter) (sched : list turn) (fuel : nat)
  (Hne : emitters <> []) :
  exists r s', pull (1 + fuel) (snd (interleave sched (New emitters) start))
               = Returned r s'.
Proof.
  destruct (new_state_interleave _ sched _ _ start (new_state_start _ Hne))
    as [m' [_ Hst]].
  destruct Hst as [[|e0 b] [|e rest] Hle | [|e0 b] Hle | [|e0 b] Hle];
    try (rewrite (pull_buffered _ _ e0 b) by reflexivity; eauto);
    try (rewrite pull_drained by reflexivity; eauto).
  - (* the goroutine is about to close *)
    simpl. rewrite pull_drained by reflexivity. eauto.
  - (* the goroutine is at its send *)
    simpl. eauto.
Qed.

Lemma Next_on_New_returns_within_one_step_witness :
  let emitters := [Some (EmitValue (ItemInt 1))] in
  let sched := [Pull; Pull] in
  emitters <> []
  /\ exists r s', pull 1 (snd (interleave sched (New emitters) start)) = Returned r s'.
Proof.
  intros emitters sched.
  assert (Hne : emitters <> []) by discriminate.
  split; [exact Hne|].
  exact (Next_on_New_returns_within_one_step emitters sched 0 Hne).
Defined.

(** ** [From] without a consumer *)

(** X10: left without a consumer, the goroutine of [From] makes one pull
    and then stands at its send for ever, holding the emitter it pulled,
    with the stream open, unless that first pull fails; if it fails the
    goroutine closes the stream and returns by itself, having sent
    nothing. *)
Theorem From_without_consumer (iter : Iterator) (n : nat) :
  (forall emitter,
      fst (Iterator_Next iter) = (emitter, None) ->
      run_producer (S n) (From iter)
      = ([LPrint emitter None],
         {| ch := make 0;
            producer := Some (Go from_pc (FromSend emitter (advance 1 iter)) from_code) |}))
  /\ (forall emitter err,
      fst (Iterator_Next iter) = (emitter, Some err) ->
      run_producer (3 + n) (From iter)
      = ([LPrint emitter (Some err); LClose; LExit],
         {| ch := close (make 0); producer := None |})).
Proof.
  assert (Hstep : prod_step (From iter)
                  = Stepped (LPrint (fst (fst (Iterator_Next iter)))
                                    (snd (fst (Iterator_Next iter))))
                      {| ch := make 0;
                         producer :=
                           Some (Go from_pc
                                   (match snd (fst (Iterator_Next iter)) with
                                    | Some _ => FromClose
                                    | None => FromSend (fst (fst (Iterator_Next iter)))
                                                       (snd (Iterator_Next iter))
                                    end) from_code) |}).
  { unfold prod_step, From. cbn [producer ch code at_pc from_code].
    destruct (Iterator_Next iter) as [[e0 err0] it']. reflexivity. }
  split.
  - intros e He.
    change (advance 1 iter) with (snd (Iterator_Next iter)).
    cbn [run_producer]. rewrite Hstep, He. cbn [fst snd].
    destruct n; reflexivity.
  - intros e err He.
    change (3 + n) with (S (S (S n))).
    cbn [run_producer]. rewrite Hstep, He. cbn [fst snd].
    destruct n; reflexivity.
Qed.

Lemma From_without_consumer_witness :
  let a := Some (EmitValue (ItemInt 1)) in
  run_producer 5 (From (slice_iterator [a]))
  = ([LPrint a None],
     {| ch := make 0;
        producer := Some (Go from_pc (FromSend a (advance 1 (slice_iterator [a]))) from_code) |})
  /\ run_producer 5 (From (slice_iterator []))
     = ([LPrint None (Some (NewError EndOfIteratorError)); LClose; LExit],
        {| ch := close (make 0); producer := None |}).
Proof.
  intros a. split.
  - exact (proj1 (From_without_consumer (slice_iterator [a]) 4) a eq_refl).
  - exact (proj2 (From_without_consumer (slice_iterator []) 2) None
                 (NewError EndOfIteratorError) eq_refl).
Defined.
